(** * pyRandomWalk: the walk generator of [random_walk.py]

    A shallow embedding of the class [random_walk] and the properties of
    its trajectory generator.

    Conventions of the embedding.
    - numpy's float64 values are idealised as real numbers ([R]); [np.cos],
      [np.sin], [np.sqrt] and [np.pi] are [cos], [sin], [sqrt] and [PI].
      Rounding is therefore not modelled: an equality proved here holds in
      the program up to floating-point rounding of the same expression.
    - A one-dimensional array is a [list]; the two-dimensional arrays
      [self.x], [self.y], [self.z] are lists of rows.
    - [np.random] is an interface ([RandomState]) whose draws are arbitrary
      but well shaped; every theorem holds for all its implementations.
    - A Python exception is a value of [exn]; code that may raise lives in
      the state-and-error monad [M]. *)

From Stdlib Require Import Reals Lra Lia ZArith String.
From stdpp Require Import base option list.

#[local] Open Scope R_scope.
#[local] Open Scope string_scope.

(** ** Exceptions *)

Inductive exn : Type :=
  | ValueError_dimensions (d : Z)
      (* 'Dimensions must be in [1, 2, 3], but is {}.' *)
  | ValueError_wall_mode (m : string)
      (* 'wall_mode must either be 'reflect' or 'exclude', but is '{}'.' *)
  | ValueError_numpy
      (* a ValueError raised inside numpy: [choice] on an empty or
         mis-shaped population, a row assignment that cannot broadcast *)
  | AssertionError_lengths
      (* 'Arrays must have equal lengths.' *)
  | AssertionError_constraints
      (* 'Maximum number of iterations caused by constraints is reached. ...' *)
  | UnboundLocalError
      (* [random_walk_angles_xz] read before assignment *)
  | OutOfFuel.
      (* not a Python exception: the recursion budget of [exclude_loop]
         ran out; [exclude_loop_fuel] shows this never happens *)

Inductive result (A : Type) : Type :=
  | Ok (a : A)
  | Raise (e : exn).
Arguments Ok {A} a.
Arguments Raise {A} e.

(** ** Comparisons on array elements *)

#[global] Instance Rgt_decision (a b : R) : Decision (a > b) := Rgt_dec a b.
#[global] Instance Rlt_decision (a b : R) : Decision (a < b) := Rlt_dec a b.

(** ** The random number generator

    [uniform lo hi n] is [np.random.uniform(lo, hi, n)] and
    [choice a n p] is [np.random.choice(a, size=n, p=p)], which raises a
    [ValueError] (here [None]) on a population it cannot sample from. *)

Class RandomState (G : Type) : Type := {
  uniform : R -> R -> nat -> G -> list R * G;
  choice : list R -> nat -> option (list R) -> G -> option (list R) * G;
  uniform_length lo hi n g : length (uniform lo hi n g).1 = n;
  choice_length a n p g l : (choice a n p g).1 = Some l -> length l = n;
  choice_elem a n p g l : (choice a n p g).1 = Some l -> Forall (fun v => In v a) l
}.

(** ** Configuration and object state *)

(** [start_x], [start_y], [start_z]: a single value or one value per walk. *)
Inductive start : Type :=
  | Scalar (v : R)
  | PerWalk (l : list R).

(** The attributes [__init__] stores from its parameters.  [step_number]
    and [number_of_walks] are array dimensions, hence natural numbers;
    an axis limit is its pair [(limits[0], limits[1])]. *)
Record config : Type := {
  step_number : nat;
  number_of_walks : nat;
  start_x : start;
  start_y : start;
  start_z : start;
  dimensions : Z;
  step_length : R;
  angles_xy : option (list R);
  angles_xz : option (list R);
  angles_xy_p : option (list R);
  angles_xz_p : option (list R);
  x_limits : option (R * R);
  y_limits : option (R * R);
  z_limits : option (R * R);
  constraint_counter : Z;
  wall_mode : string
}.

(** The coordinate arrays [self.x], [self.y], [self.z]. *)
Record trajectory : Type := Trajectory {
  traj_x : list (list R);
  traj_y : list (list R);
  traj_z : list (list R)
}.

(** The variables of the rejection loop of one step: the arrays, the mask
    [constraint_violated] and the per-walk [counter]. *)
Record loop_state : Type := LoopState {
  ls_coords : trajectory;
  ls_violated : list bool;
  ls_counter : list Z
}.

(** A constructed [random_walk] instance. *)
Record random_walk : Type := {
  rw_self : config;
  rw_coords : trajectory;
  end2end_real : list R;
  end2end : R
}.

(** ** numpy array operations *)

(** [np.sum] and [np.mean] of a one-dimensional array.  [np.mean] of an
    empty array is not a number; here it is [0 / 0], so a statement about
    a mean says something about the program for at least one walk only. *)
Definition np_sum (l : list R) : R := foldr Rplus 0 l.
Definition np_mean (l : list R) : R := np_sum l / INR (length l).

(** [a[mask]]: the entries of [a] where the boolean mask is set. *)
Fixpoint mask_select {A} (mask : list bool) (a : list A) : list A :=
  match mask, a with
  | true :: mask', v :: a' => v :: mask_select mask' a'
  | false :: mask', _ :: a' => mask_select mask' a'
  | _, _ => []
  end.

(** [a[mask] = vals]: the entries of [a] where the mask is set are
    replaced, in order, by the entries of [vals].  numpy requires [vals]
    to have one entry per set bit; that is the only case reached. *)
Fixpoint mask_assign {A} (mask : list bool) (a vals : list A) : list A :=
  match mask, a with
  | true :: mask', v :: a' =>
      match vals with
      | w :: vals' => w :: mask_assign mask' a' vals'
      | [] => v :: a'
      end
  | false :: mask', v :: a' => v :: mask_assign mask' a' vals
  | _, _ => a
  end.

(** [np.sum(mask)]: the number of set bits. *)
Fixpoint mask_count (mask : list bool) : nat :=
  match mask with
  | [] => 0%nat
  | b :: mask' => ((if b then 1 else 0) + mask_count mask')%nat
  end.

(** [counter[mask] += 1]. *)
Definition mask_incr (mask : list bool) (counter : list Z) : list Z :=
  zip_with (fun (b : bool) c => if b then (c + 1)%Z else c) mask counter.

(** Python's [any] on a boolean array. *)
Definition any (mask : list bool) : bool := existsb (fun b => b) mask.

(** Row [i] of a two-dimensional array. *)
Definition row (a : list (list R)) (i : nat) : list R := a !!! i.

(** [a[0] = s] for a row of [n] cells: a scalar or a one-element sequence
    is broadcast, a sequence of [n] values is copied, anything else cannot
    be broadcast. *)
Definition broadcast_to (n : nat) (s : start) : result (list R) :=
  match s with
  | Scalar v => Ok (replicate n v)
  | PerWalk l =>
      if (length l =? n)%nat then Ok l
      else match l with
           | [v] => Ok (replicate n v)
           | _ => Raise ValueError_numpy
           end
  end.

(** ** The methods of [random_walk] *)

Section Generator.
Context {G : Type} `{!RandomState G}.

(** Computations that draw random numbers and may raise.  An exception
    ends the computation: the generator it leaves behind is not kept. *)
Definition M (A : Type) : Type := G -> result (A * G).

#[global] Instance M_ret : MRet M := fun A a g => Ok (a, g).
#[global] Instance M_bind : MBind M := fun A B f m g =>
  match m g with
  | Ok (a, g') => f a g'
  | Raise e => Raise e
  end.

Definition raise {A} (e : exn) : M A := fun _ => Raise e.

Definition lift {A} (r : result A) : M A := fun g =>
  match r with
  | Ok a => Ok (a, g)
  | Raise e => Raise e
  end.

Definition random_uniform (lo hi : R) (n : nat) : M (list R) := fun g =>
  Ok (uniform lo hi n g).

Definition random_choice (a : list R) (n : nat) (p : option (list R)) : M (list R) := fun g =>
  match choice a n p g with
  | (Some l, g') => Ok (l, g')
  | (None, _) => Raise ValueError_numpy
  end.

(** [for i in l: a = body(i, a)]. *)
Fixpoint for_each {A} (body : nat -> A -> M A) (l : list nat) (a : A) : M A :=
  match l with
  | [] => mret a
  | i :: l' => a' ← body i a; for_each body l' a'
  end.

(** [calc_next_steps(self, step_number)] *)
Definition calc_next_steps (self : config) (step_number : nat)
    : M (list R * list R * list R) :=
  random_walk_angles_xy ←
    (if (dimensions self =? 1)%Z then
       random_choice [0; PI] step_number (angles_xy_p self)
     else if (dimensions self =? 2)%Z || (dimensions self =? 3)%Z then
       match angles_xy self with
       | None => random_uniform 0 (2 * PI) step_number
       | Some a => random_choice a step_number (angles_xy_p self)
       end
     else raise (ValueError_dimensions (dimensions self)));
  random_walk_angles_xz ←
    (if (dimensions self =? 1)%Z || (dimensions self =? 2)%Z then
       mret (replicate step_number (PI / 2))
     else if (dimensions self =? 3)%Z then
       match angles_xz self with
       | None => random_uniform 0 (2 * PI) step_number
       | Some a => random_choice a step_number (angles_xz_p self)
       end
     else raise UnboundLocalError);
  let curr_x_step :=
    zip_with (fun xy xz => cos xy * sin xz * step_length self)
      random_walk_angles_xy random_walk_angles_xz in
  let curr_y_step :=
    zip_with (fun xy xz => sin xy * sin xz * step_length self)
      random_walk_angles_xy random_walk_angles_xz in
  let curr_z_step :=
    map (fun xz => cos xz * step_length self) random_walk_angles_xz in
  mret (curr_x_step, curr_y_step, curr_z_step).

(** [(curr > limits[1]) | (curr < limits[0])] for one entry. *)
Definition exceeds (limits : R * R) (v : R) : bool :=
  bool_decide (v > limits.2) || bool_decide (v < limits.1).

(** [constraint_violated += ...] for one axis. *)
Definition add_violations (limits : option (R * R)) (curr : list R)
    (constraint_violated : list bool) : list bool :=
  match limits with
  | Some lim => zip_with orb constraint_violated (map (exceeds lim) curr)
  | None => constraint_violated
  end.

(** [check_constraints(self, curr_x, curr_y, curr_z)] *)
Definition check_constraints (self : config) (curr_x curr_y curr_z : list R)
    : result (list bool) :=
  if (length curr_x =? length curr_y)%nat && (length curr_y =? length curr_z)%nat then
    let constraint_violated := replicate (length curr_x) false in
    let constraint_violated := add_violations (x_limits self) curr_x constraint_violated in
    let constraint_violated := add_violations (y_limits self) curr_y constraint_violated in
    let constraint_violated := add_violations (z_limits self) curr_z constraint_violated in
    Ok constraint_violated
  else Raise AssertionError_lengths.

(** [a[curr_step+1] = a[curr_step] + curr_a_step] *)
Definition advance (a : list (list R)) (curr_step : nat) (curr_a_step : list R)
    : list (list R) :=
  <[S curr_step := zip_with Rplus (row a curr_step) curr_a_step]> a.

(** [a[curr_step+1, mask] = a[curr_step, mask] + curr_a_step] *)
Definition advance_masked (a : list (list R)) (curr_step : nat) (mask : list bool)
    (curr_a_step : list R) : list (list R) :=
  <[S curr_step :=
      mask_assign mask (row a (S curr_step))
        (zip_with Rplus (mask_select mask (row a curr_step)) curr_a_step)]> a.

(** The three row assignments of a step, and of a retry. *)
Definition moved (t : trajectory) (curr_step : nat)
    (curr_x_step curr_y_step curr_z_step : list R) : trajectory :=
  Trajectory (advance (traj_x t) curr_step curr_x_step)
             (advance (traj_y t) curr_step curr_y_step)
             (advance (traj_z t) curr_step curr_z_step).

Definition moved_masked (t : trajectory) (curr_step : nat) (mask : list bool)
    (curr_x_step curr_y_step curr_z_step : list R) : trajectory :=
  Trajectory (advance_masked (traj_x t) curr_step mask curr_x_step)
             (advance_masked (traj_y t) curr_step mask curr_y_step)
             (advance_masked (traj_z t) curr_step mask curr_z_step).

(** [check_constraints] on row [curr_step+1] of the three arrays. *)
Definition check_row (self : config) (t : trajectory) (curr_step : nat)
    : result (list bool) :=
  check_constraints self (row (traj_x t) (S curr_step))
    (row (traj_y t) (S curr_step)) (row (traj_z t) (S curr_step)).

(** [any(counter[constraint_violated] >= self.constraint_counter)] *)
Definition exhausted (self : config) (constraint_violated : list bool)
    (counter : list Z) : bool :=
  any (map (fun c => (c >=? constraint_counter self)%Z)
         (mask_select constraint_violated counter)).

(** One pass through the body of [while any(constraint_violated)]:
    resample the flagged walks, recheck, count, assert. *)
Definition exclude_iteration (self : config) (curr_step : nat) (st : loop_state)
    : M loop_state :=
  let t := ls_coords st in
  let constraint_violated := ls_violated st in
  '(curr_x_step, curr_y_step, curr_z_step) ←
    calc_next_steps self (mask_count constraint_violated);
  let t' :=
    moved_masked t curr_step constraint_violated
      curr_x_step curr_y_step curr_z_step in
  constraint_violated' ← lift (check_row self t' curr_step);
  let counter' := mask_incr constraint_violated' (ls_counter st) in
  if exhausted self constraint_violated' counter' then
    raise AssertionError_constraints
  else mret (LoopState t' constraint_violated' counter').

(** The [while] loop of one step. *)
Fixpoint exclude_loop (fuel : nat) (self : config) (curr_step : nat)
    (st : loop_state) : M trajectory :=
  if any (ls_violated st) then
    match fuel with
    | O => raise OutOfFuel
    | S fuel' =>
        st' ← exclude_iteration self curr_step st;
        exclude_loop fuel' self curr_step st'
    end
  else mret (ls_coords st).

(** Iterations that always suffice for [exclude_loop]. *)
Definition exclude_fuel (self : config) : nat :=
  Z.to_nat (Z.max 1 (constraint_counter self)).

(** The body of [for curr_step in range(self.step_number)]. *)
Definition walk_step (self : config) (curr_step : nat) (t : trajectory)
    : M trajectory :=
  '(curr_x_step, curr_y_step, curr_z_step) ←
    calc_next_steps self (number_of_walks self);
  let t' := moved t curr_step curr_x_step curr_y_step curr_z_step in
  constraint_violated ← lift (check_row self t' curr_step);
  if String.eqb (wall_mode self) "exclude" then
    let counter := replicate (number_of_walks self) 0%Z in
    exclude_loop (exclude_fuel self) self curr_step
      (LoopState t' constraint_violated counter)
  else if String.eqb (wall_mode self) "reflect" then
    mret t'
  else raise (ValueError_wall_mode (wall_mode self)).

(** Rows 0 of the arrays: [np.zeros] followed by [a[0] = self.start_a]. *)
Definition initial_array (self : config) (s : start) : result (list (list R)) :=
  let zeros := replicate (S (step_number self)) (replicate (number_of_walks self) 0) in
  match broadcast_to (number_of_walks self) s with
  | Ok r => Ok (<[0%nat := r]> zeros)
  | Raise e => Raise e
  end.

(** [generate_walk_coordinates(self)] *)
Definition generate_walk_coordinates (self : config) : M trajectory :=
  x ← lift (initial_array self (start_x self));
  y ← lift (initial_array self (start_y self));
  z ← lift (initial_array self (start_z self));
  for_each (walk_step self) (seq 0 (step_number self)) (Trajectory x y z).

(** [p / np.sum(p)] *)
Definition normalize (p : list R) : list R := map (fun v => v / np_sum p) p.

(** [(a[0, :] - a[-1, :])**2] *)
Definition squared_displacement (a : list (list R)) : list R :=
  zip_with (fun first last => (first - last) ^ 2) (row a 0) (row a (length a - 1)).

(** The attribute assignments of [__init__]: every parameter is stored
    as given, except the probabilities, which are normalised. *)
Definition store_attributes (args : config) : config :=
  {| step_number := step_number args;
     number_of_walks := number_of_walks args;
     start_x := start_x args;
     start_y := start_y args;
     start_z := start_z args;
     dimensions := dimensions args;
     step_length := step_length args;
     angles_xy := angles_xy args;
     angles_xz := angles_xz args;
     angles_xy_p := normalize <$> angles_xy_p args;
     angles_xz_p := normalize <$> angles_xz_p args;
     x_limits := x_limits args;
     y_limits := y_limits args;
     z_limits := z_limits args;
     constraint_counter := constraint_counter args;
     wall_mode := wall_mode args |}.

(** [__init__]: store the attributes, generate, compute the distances. *)
Definition __init__ (args : config) : M random_walk :=
  let self := store_attributes args in
  t ← generate_walk_coordinates self;
  let dx2 := squared_displacement (traj_x t) in
  let dy2 := squared_displacement (traj_y t) in
  let dz2 := squared_displacement (traj_z t) in
  mret {| rw_self := self;
          rw_coords := t;
          end2end_real := sqrt <$> zip_with Rplus (zip_with Rplus dx2 dy2) dz2;
          end2end := sqrt (np_mean dx2 + np_mean dy2 + np_mean dz2) |}.

End Generator.

(** ** A scripted generator

    A generator that replays a tape of indices: [choice] reads one index
    per sample into its population, [uniform] one quarter of the interval
    per index.  It is used to run the program on concrete inputs. *)

Definition tape_uniform (lo hi : R) (n : nat) (g : list nat) : list R * list nat :=
  ((fun k => lo + (hi - lo) * INR (nth k g 0%nat mod 4) / 4) <$> seq 0 n, drop n g).

Definition tape_choice (a : list R) (n : nat) (p : option (list R)) (g : list nat)
    : option (list R) * list nat :=
  match a with
  | [] => (None, g)
  | a0 :: _ =>
      if from_option (fun p => length p =? length a)%nat true p then
        (Some ((fun k => nth (nth k g 0%nat) a a0) <$> seq 0 n), drop n g)
      else (None, g)
  end.

#[global, refine] Instance tape_random : RandomState (list nat) :=
  {| uniform := tape_uniform; choice := tape_choice |}.
Proof.
  - intros lo hi n g. unfold tape_uniform. simpl.
    by rewrite length_fmap, length_seq.
  - intros a n p g l. unfold tape_choice.
    destruct a as [|a0 a]; [done|].
    destruct (from_option _ _ _); [|done]. simpl. intros [= <-].
    by rewrite length_fmap, length_seq.
  - intros a n p g l. unfold tape_choice.
    destruct a as [|a0 a]; [done|].
    destruct (from_option _ _ _); [|done]. simpl. intros [= <-].
    apply Forall_fmap, Forall_forall. intros k _. unfold compose.
    change (In (nth (nth k g 0%nat) (a0 :: a) a0) (a0 :: a)).
    destruct (nth_in_or_default (nth k g 0%nat) (a0 :: a) a0) as [Hin | Hd];
      [exact Hin | rewrite Hd; by left].
Defined.

(** ** Vocabulary of the properties *)

(** Entry [w] of row [s]. *)
Definition cell (a : list (list R)) (s w : nat) : option R :=
  a !! s ≫= (.!! w).

(** A coordinate lies inside the limits of its axis, bounds included; an
    axis without limits accepts every coordinate. *)
Definition within (limits : option (R * R)) (v : R) : Prop :=
  match limits with
  | Some lim => lim.1 <= v <= lim.2
  | None => True
  end.

(** What [check_constraints] computes for one walk. *)
Definition violates (self : config) (vx vy vz : R) : bool :=
  from_option (fun lim => exceeds lim vx) false (x_limits self)
  || from_option (fun lim => exceeds lim vy) false (y_limits self)
  || from_option (fun lim => exceeds lim vz) false (z_limits self).

(** The arrays have [step_number + 1] rows of [number_of_walks] cells. *)
Definition well_shaped (self : config) (a : list (list R)) : Prop :=
  length a = S (step_number self) /\
  Forall (fun r => length r = number_of_walks self) a.

Definition shaped (self : config) (t : trajectory) : Prop :=
  well_shaped self (traj_x t) /\ well_shaped self (traj_y t) /\
  well_shaped self (traj_z t).

(** A displacement [calc_next_steps] can produce for one walk. *)
Definition is_step (self : config) (dx dy dz : R) : Prop :=
  exists xy xz : R,
    dx = cos xy * sin xz * step_length self /\
    dy = sin xy * sin xz * step_length self /\
    dz = cos xz * step_length self /\
    (dimensions self = 1%Z -> xy = 0 \/ xy = PI) /\
    (dimensions self = 1%Z \/ dimensions self = 2%Z -> xz = PI / 2).

(** Row [s+1] is row [s] plus one displacement per walk. *)
Definition stepped (self : config) (t : trajectory) (s : nat) : Prop :=
  forall w vx vy vz,
    cell (traj_x t) s w = Some vx ->
    cell (traj_y t) s w = Some vy ->
    cell (traj_z t) s w = Some vz ->
    exists dx dy dz,
      is_step self dx dy dz /\
      cell (traj_x t) (S s) w = Some (vx + dx) /\
      cell (traj_y t) (S s) w = Some (vy + dy) /\
      cell (traj_z t) (S s) w = Some (vz + dz).

(** The mask of a loop state is the check of its current rows. *)
Definition consistent (self : config) (curr_step : nat) (st : loop_state) : Prop :=
  check_row self (ls_coords st) curr_step = Ok (ls_violated st).

(** Every row but row [curr_step+1] is the same in [t] and [t']. *)
Definition same_rows_except (curr_step : nat) (t t' : trajectory) : Prop :=
  forall s, s <> S curr_step ->
    traj_x t' !! s = traj_x t !! s /\
    traj_y t' !! s = traj_y t !! s /\
    traj_z t' !! s = traj_z t !! s.

(** Walk [w] has the same coordinates in row [s] of [t] and [t']. *)
Definition same_walk (s w : nat) (t t' : trajectory) : Prop :=
  cell (traj_x t') s w = cell (traj_x t) s w /\
  cell (traj_y t') s w = cell (traj_y t) s w /\
  cell (traj_z t') s w = cell (traj_z t) s w.

(** Rows [0] to [j] are the same in [t] and [t']. *)
Definition agree_upto (j : nat) (t t' : trajectory) : Prop :=
  forall s, (s <= j)%nat ->
    traj_x t' !! s = traj_x t !! s /\
    traj_y t' !! s = traj_y t !! s /\
    traj_z t' !! s = traj_z t !! s.

(** [check_constraints] flags no walk in row [s+1]. *)
Definition checked (self : config) (t : trajectory) (s : nat) : Prop :=
  exists cv, check_row self t s = Ok cv /\ any cv = false.

(** Every walk still flagged has been retried [K] times. *)
Definition counted (K : Z) (st : loop_state) : Prop :=
  length (ls_counter st) = length (ls_violated st) /\
  forall w, ls_violated st !! w = Some true -> ls_counter st !! w = Some K.

Section Runs.
Context {G : Type} `{!RandomState G}.

(** [retries self curr_step k st g st' g']: entered in state [st] with
    generator [g], the rejection loop of step [curr_step] is in state
    [st'] with generator [g'] after [k] passes through its body. *)
Inductive retries (self : config) (curr_step : nat)
    : nat -> loop_state -> G -> loop_state -> G -> Prop :=
  | retries_O st g : retries self curr_step 0 st g st g
  | retries_S k st g st1 g1 st2 g2 :
      any (ls_violated st) = true ->
      exclude_iteration self curr_step st g = Ok (st1, g1) ->
      retries self curr_step k st1 g1 st2 g2 ->
      retries self curr_step (S k) st g st2 g2.

(** The arrays before the first step. *)
Definition initial_coordinates (self : config) : result trajectory :=
  match initial_array self (start_x self),
        initial_array self (start_y self),
        initial_array self (start_z self) with
  | Ok x, Ok y, Ok z => Ok (Trajectory x y z)
  | Raise e, _, _ | _, Raise e, _ | _, _, Raise e => Raise e
  end.

(** [retry_outcome self g0 s k cv counter]: started with generator
    [g0], generation completes [s] steps, and in step [s] the rejection
    loop, after [k] retries that did not end it, makes one more retry
    whose recheck yields the mask [cv] and the counters [counter]: the
    values its [assert] inspects. *)
Definition retry_outcome (self : config) (g0 : G) (s k : nat)
    (cv : list bool) (counter : list Z) : Prop :=
  exists t0 t g dx dy dz g1 cv0 st gk ex ey ez g2,
    initial_coordinates self = Ok t0 /\
    for_each (walk_step self) (seq 0 s) t0 g0 = Ok (t, g) /\
    (s < step_number self)%nat /\
    calc_next_steps self (number_of_walks self) g = Ok ((dx, dy, dz), g1) /\
    check_row self (moved t s dx dy dz) s = Ok cv0 /\
    retries self s k
      (LoopState (moved t s dx dy dz) cv0 (replicate (number_of_walks self) 0%Z))
      g1 st gk /\
    any (ls_violated st) = true /\
    calc_next_steps self (mask_count (ls_violated st)) gk = Ok ((ex, ey, ez), g2) /\
    check_row self (moved_masked (ls_coords st) s (ls_violated st) ex ey ez) s
    = Ok cv /\
    counter = mask_incr cv (ls_counter st).
End Runs.

(** The same configuration with no limit on any axis. *)
Definition without_limits (self : config) : config :=
  {| step_number := step_number self;
     number_of_walks := number_of_walks self;
     start_x := start_x self;
     start_y := start_y self;
     start_z := start_z self;
     dimensions := dimensions self;
     step_length := step_length self;
     angles_xy := angles_xy self;
     angles_xz := angles_xz self;
     angles_xy_p := angles_xy_p self;
     angles_xz_p := angles_xz_p self;
     x_limits := None;
     y_limits := None;
     z_limits := None;
     constraint_counter := constraint_counter self;
     wall_mode := wall_mode self |}.

(** Euclidean length of a displacement. *)
Definition euclidean (dx dy dz : R) : R := sqrt (dx ^ 2 + dy ^ 2 + dz ^ 2).

(** The mean over the walks of the squared displacement along one axis,
    from the first and the last row of that axis. *)
Definition mean_squared_displacement (first last : list R) : R :=
  np_sum (zip_with (fun a b => (a - b) ^ 2) first last) / INR (length first).

(** ** Configurations used as examples *)

(** Walks with unit steps that all start at [(start, 0, 0)], with
    optional limits and probabilities on the x side. *)
Definition example_config (dims : Z) (steps walks : nat) (start : R)
    (limits : option (R * R)) (retries : Z) (mode : string)
    (probabilities : option (list R)) : config :=
  {| step_number := steps;
     number_of_walks := walks;
     start_x := Scalar start;
     start_y := Scalar 0;
     start_z := Scalar 0;
     dimensions := dims;
     step_length := 1;
     angles_xy := None;
     angles_xz := None;
     angles_xy_p := probabilities;
     angles_xz_p := None;
     x_limits := limits;
     y_limits := None;
     z_limits := None;
     constraint_counter := retries;
     wall_mode := mode |}.

(** No step, a dimension and a wall mode that do not exist. *)
Definition cfg_unchecked : config :=
  {| step_number := 0;
     number_of_walks := 2;
     start_x := PerWalk [1; 2];
     start_y := Scalar 0;
     start_z := Scalar 0;
     dimensions := 7;
     step_length := 1;
     angles_xy := None;
     angles_xz := None;
     angles_xy_p := Some [];
     angles_xz_p := None;
     x_limits := None;
     y_limits := None;
     z_limits := None;
     constraint_counter := 1000;
     wall_mode := "bounce" |}.

(** Two walks on a line between -1/2 and 3/2, one step. *)
Definition bounce : config :=
  example_config 1 1 2 0 (Some (-1 / 2, 3 / 2)) 3 "exclude" None.

(** The trajectory of [bounce] when the first walk first steps to the
    left, out of the limits, and then to the right. *)
Definition bounce_walk : trajectory :=
  Trajectory [[0; 0]; [1; 1]] [[0; 0]; [0; 0]] [[0; 0]; [0; 0]].

(** The rejection loop of [bounce] after that first attempt. *)
Definition bounce_first_attempt : loop_state :=
  LoopState (Trajectory [[0; 0]; [-1; 1]] [[0; 0]; [0; 0]] [[0; 0]; [0; 0]])
    [true; false] [0%Z; 0%Z].

(** One walk that starts at 2, outside its limits 0 and 1. *)
Definition outside : config :=
  example_config 1 1 1 2 (Some (0, 1)) 3 "exclude" None.

(** One walk boxed in between -1/2 and 1/2, with two retries allowed. *)
Definition tight : config :=
  example_config 1 1 1 0 (Some (-1 / 2, 1 / 2)) 2 "exclude" None.

(** The same box with walls that should reflect. *)
Definition mirror : config :=
  example_config 1 1 1 0 (Some (-1 / 2, 1 / 2)) 3 "reflect" None.

(** Two walks of two steps on a line without limits. *)
Definition pair : config :=
  example_config 1 2 2 0 None 3 "exclude" None.

(** A dimension that does not exist, and a wall mode that does not. *)
Definition seven_dimensions : config :=
  example_config 7 1 1 0 None 3 "exclude" None.

Definition bouncing_walls : config :=
  example_config 1 1 1 0 None 3 "bounce" None.

(** Relative probabilities 1 and 3 for the two directions of a line. *)
Definition weighted : config :=
  example_config 1 1 1 0 None 3 "exclude" (Some [1; 3]).

(** An empty probability vector, which a walk in the plane never reads. *)
Definition unweighted : config :=
  example_config 2 1 1 0 None 3 "exclude" (Some []).

(** ** Running the program on an example *)

Ltac trig := rewrite ?cos_PI, ?sin_PI, ?cos_0, ?sin_0, ?cos_PI2, ?sin_PI2.

Ltac decide_R :=
  repeat match goal with
  | |- context [bool_decide (?a > ?b)] =>
      first [rewrite (bool_decide_eq_true_2 (a > b)) by lra
            | rewrite (bool_decide_eq_false_2 (a > b)) by lra]
  | |- context [bool_decide (?a < ?b)] =>
      first [rewrite (bool_decide_eq_true_2 (a < b)) by lra
            | rewrite (bool_decide_eq_false_2 (a < b)) by lra]
  end.

Ltac compute_Z :=
  repeat match goal with
  | |- context [Z.to_nat ?z] =>
      let n := eval vm_compute in (Z.to_nat z) in
      progress change (Z.to_nat z) with n
  | |- context [Z.geb ?a ?b] =>
      let n := eval vm_compute in (Z.geb a b) in
      progress change (Z.geb a b) with n
  | |- context [Z.add ?a ?b] =>
      let n := eval vm_compute in (Z.add a b) in
      progress change (Z.add a b) with n
  end.

Ltac run :=
  repeat (progress
    (cbn -[Rplus Rmult Rminus Rdiv Rinv Ropp cos sin sqrt PI IZR INR pow];
     unfold mbind, M_bind, mret, M_ret, lift, raise, random_choice,
       random_uniform, check_row, check_constraints, add_violations,
       exceeds, row, advance, advance_masked, moved, moved_masked,
       exhausted, exclude_fuel, any, exclude_iteration, calc_next_steps,
       mask_incr;
     trig; decide_R; compute_Z)).

(** Equal arrays of real numbers, cell by cell. *)
Ltac same_values := repeat f_equal; lra.

(** ** Further vocabulary *)

(** The same configuration with another wall mode. *)
Definition with_wall_mode (mode : string) (self : config) : config :=
  {| step_number := step_number self;
     number_of_walks := number_of_walks self;
     start_x := start_x self;
     start_y := start_y self;
     start_z := start_z self;
     dimensions := dimensions self;
     step_length := step_length self;
     angles_xy := angles_xy self;
     angles_xz := angles_xz self;
     angles_xy_p := angles_xy_p self;
     angles_xz_p := angles_xz_p self;
     x_limits := x_limits self;
     y_limits := y_limits self;
     z_limits := z_limits self;
     constraint_counter := constraint_counter self;
     wall_mode := mode |}.

(** The exceptions generation can end with, each with its cause. *)
Definition failure_cause (self : config) (e : exn) : Prop :=
  (e = ValueError_dimensions (dimensions self) /\
   dimensions self <> 1%Z /\ dimensions self <> 2%Z /\ dimensions self <> 3%Z) \/
  (e = ValueError_wall_mode (wall_mode self) /\
   wall_mode self <> "exclude" /\ wall_mode self <> "reflect") \/
  e = ValueError_numpy \/
  (e = AssertionError_constraints /\ wall_mode self = "exclude" /\
   ~ (x_limits self = None /\ y_limits self = None /\ z_limits self = None)).

(** The rejection loop of [tight] after its first attempt, and after a
    first retry that steps out of the limits again. *)
Definition tight_first_attempt : loop_state :=
  LoopState (Trajectory [[0]; [1]] [[0]; [0]] [[0]; [0]]) [true] [0%Z].

Definition tight_second_attempt : loop_state :=
  LoopState (Trajectory [[0]; [1]] [[0]; [0]] [[0]; [0]]) [true] [1%Z].

(** A walk on the square lattice, and one along the x axis of space. *)
Definition lattice : config :=
  {| step_number := 1;
     number_of_walks := 1;
     start_x := Scalar 0;
     start_y := Scalar 0;
     start_z := Scalar 0;
     dimensions := 2;
     step_length := 1;
     angles_xy := Some [0; PI / 2; PI];
     angles_xz := None;
     angles_xy_p := None;
     angles_xz_p := None;
     x_limits := None;
     y_limits := None;
     z_limits := None;
     constraint_counter := 3;
     wall_mode := "exclude" |}.

Definition axis : config :=
  {| step_number := 1;
     number_of_walks := 1;
     start_x := Scalar 0;
     start_y := Scalar 0;
     start_z := Scalar 0;
     dimensions := 3;
     step_length := 1;
     angles_xy := Some [0; PI];
     angles_xz := Some [PI / 2];
     angles_xy_p := None;
     angles_xz_p := None;
     x_limits := None;
     y_limits := None;
     z_limits := None;
     constraint_counter := 3;
     wall_mode := "exclude" |}.

(** The same configuration with another retry budget. *)
Definition with_constraint_counter (c : Z) (self : config) : config :=
  {| step_number := step_number self;
     number_of_walks := number_of_walks self;
     start_x := start_x self;
     start_y := start_y self;
     start_z := start_z self;
     dimensions := dimensions self;
     step_length := step_length self;
     angles_xy := angles_xy self;
     angles_xz := angles_xz self;
     angles_xy_p := angles_xy_p self;
     angles_xz_p := angles_xz_p self;
     x_limits := x_limits self;
     y_limits := y_limits self;
     z_limits := z_limits self;
     constraint_counter := c;
     wall_mode := wall_mode self |}.

(** * Properties *)

(** ** The monad *)

Section Monad.
Context {G : Type}.

Lemma bind_Ok {A B} (m : M (G:=G) A) (f : A -> M B) g r :
  (m ≫= f) g = Ok r <-> exists a g', m g = Ok (a, g') /\ f a g' = Ok r.
Proof.
  unfold mbind, M_bind. split.
  - destruct (m g) as [[a g']|e]; [eauto | discriminate].
  - intros (a & g' & -> & Hf). exact Hf.
Qed.

Lemma bind_Raise {A B} (m : M (G:=G) A) (f : A -> M B) g e :
  (m ≫= f) g = Raise e <->
  m g = Raise e \/ exists a g', m g = Ok (a, g') /\ f a g' = Raise e.
Proof.
  unfold mbind, M_bind. split.
  - destruct (m g) as [[a g']|e']; [eauto | intros [= ->]; by left].
  - intros [-> | (a & g' & -> & Hf)]; [done | exact Hf].
Qed.

Lemma lift_Ok {A} (r : result A) (g : G) a g' :
  lift r g = Ok (a, g') <-> r = Ok a /\ g' = g.
Proof.
  unfold lift. destruct r; split; try discriminate.
  - by intros [= -> ->].
  - by intros [[= ->] ->].
  - by intros [? _].
Qed.

Lemma ret_Ok {A} (a : A) (g : G) r : mret (M:=M) a g = Ok r <-> r = (a, g).
Proof. unfold mret, M_ret. split; [by intros [= <-] | by intros ->]. Qed.

Lemma for_each_app {A} (body : nat -> A -> M (G:=G) A) l1 l2 a g :
  for_each body (l1 ++ l2) a g = (for_each body l1 a ≫= for_each body l2) g.
Proof.
  revert a g. induction l1 as [|i l1 IH]; intros a g; simpl.
  - done.
  - unfold mbind, M_bind in *.
    destruct (body i a g) as [[a' g']|e]; [|done].
    apply IH.
Qed.
End Monad.

(** ** Boolean masks *)

Section Masks.
Context {A : Type}.
Implicit Types (m : list bool) (a vals : list A) (w : nat).

Lemma length_mask_assign m a vals : length (mask_assign m a vals) = length a.
Proof.
  revert a vals. induction m as [|[] m IH]; intros [|v a] vals; simpl; try done.
  - destruct vals; simpl; [done | by rewrite IH].
  - by rewrite IH.
Qed.

Lemma mask_assign_unflagged m a vals w :
  m !! w = Some false -> mask_assign m a vals !! w = a !! w.
Proof.
  revert a vals w. induction m as [|b m IH]; intros a vals w Hw; [done|].
  destruct a as [|v a]; [by destruct b|].
  destruct w as [|w]; simpl in Hw.
  - injection Hw as ->. done.
  - destruct b; simpl; [destruct vals; simpl; [done|]|]; by apply IH.
Qed.

Lemma length_mask_select m a :
  length a = length m -> length (mask_select m a) = mask_count m.
Proof.
  revert a. induction m as [|[] m IH]; intros [|v a] Hlen; simpl in *; try done.
  - f_equal. apply IH. lia.
  - apply IH. lia.
Qed.

(** The position of walk [w] among the flagged walks. *)
Lemma mask_rank_lt m w :
  m !! w = Some true -> (mask_count (take w m) < mask_count m)%nat.
Proof.
  revert w. induction m as [|b m IH]; intros [|w] Hw; simpl in *; try done.
  - injection Hw as ->. lia.
  - specialize (IH w Hw). destruct b; lia.
Qed.

Lemma mask_select_flagged m a w :
  length a = length m -> m !! w = Some true ->
  mask_select m a !! mask_count (take w m) = a !! w.
Proof.
  revert a w. induction m as [|b m IH]; intros [|v a] [|w] Hlen Hw;
    simpl in *; try done.
  - by injection Hw as ->.
  - destruct b; simpl; apply IH; try done; lia.
Qed.

Lemma mask_assign_flagged m a vals w :
  length a = length m -> length vals = mask_count m -> m !! w = Some true ->
  mask_assign m a vals !! w = vals !! mask_count (take w m).
Proof.
  revert a vals w. induction m as [|b m IH]; intros [|v a] vals [|w] Hlen Hvals Hw;
    simpl in *; try done.
  - injection Hw as ->. destruct vals; simpl in *; [lia | done].
  - destruct b; simpl.
    + destruct vals as [|u vals]; simpl in *; [lia|]. apply IH; try done; lia.
    + apply IH; try done; lia.
Qed.

Lemma elem_of_mask_select m a (v : A) :
  v ∈ mask_select m a <-> exists w, m !! w = Some true /\ a !! w = Some v.
Proof.
  revert a. induction m as [|b m IH]; intros [|u a]; simpl.
  - split; [by intros ?%elem_of_nil | by intros (? & ? & ?)].
  - split; [by intros ?%elem_of_nil | by intros (? & ? & ?)].
  - split; [destruct b; by intros ?%elem_of_nil | by intros ([] & ? & ?)].
  - destruct b.
    + rewrite elem_of_cons, IH. split.
      * intros [-> | (w & ? & ?)]; [by exists 0%nat | by exists (S w)].
      * intros ([|w] & Hm & Ha); simpl in *; [left; congruence | right; eauto].
    + rewrite IH. split.
      * intros (w & ? & ?). by exists (S w).
      * intros ([|w] & Hm & Ha); simpl in *; [done | eauto].
Qed.
End Masks.

Lemma any_true (m : list bool) : any m = true <-> exists w, m !! w = Some true.
Proof.
  unfold any. rewrite existsb_exists. split.
  - intros (b & Hin & ->). apply list_elem_of_In, list_elem_of_lookup in Hin. done.
  - intros (w & Hw). exists true. split; [|done].
    apply list_elem_of_In, list_elem_of_lookup. eauto.
Qed.

Lemma any_false (m : list bool) :
  any m = false <-> forall w b, m !! w = Some b -> b = false.
Proof.
  split.
  - intros Hany w [] Hw; [|done].
    assert (any m = true) by (apply any_true; eauto). congruence.
  - intros Hall. destruct (any m) eqn:Hany; [|done].
    apply any_true in Hany as (w & Hw). by apply Hall in Hw.
Qed.

Lemma mask_incr_lookup (m : list bool) (counter : list Z) (w : nat) (b : bool) (c : Z) :
  m !! w = Some b -> counter !! w = Some c ->
  mask_incr m counter !! w = Some (if b then (c + 1)%Z else c).
Proof.
  intros Hm Hc. unfold mask_incr. rewrite lookup_zip_with, Hm. simpl. by rewrite Hc.
Qed.

Lemma length_mask_incr (m : list bool) (counter : list Z) :
  length counter = length m -> length (mask_incr m counter) = length m.
Proof. intros Hlen. unfold mask_incr. rewrite length_zip_with. lia. Qed.

Lemma exhausted_true (self : config) (m : list bool) (counter : list Z) :
  exhausted self m counter = true <->
  exists w c, m !! w = Some true /\ counter !! w = Some c /\
              (c >= constraint_counter self)%Z.
Proof.
  unfold exhausted. rewrite any_true. split.
  - intros (i & Hi). apply list_lookup_fmap_Some in Hi as (c & Hge & Hc).
    apply list_elem_of_lookup_2, elem_of_mask_select in Hc as (w & Hm & Hw).
    exists w, c. repeat split; try done.
    symmetry in Hge. apply Z.geb_le in Hge. lia.
  - intros (w & c & Hm & Hw & Hge).
    assert (c ∈ mask_select m counter) as (i & Hi)%list_elem_of_lookup
      by (apply elem_of_mask_select; eauto).
    exists i. rewrite list_lookup_fmap, Hi. simpl. f_equal.
    apply Z.geb_le. lia.
Qed.

(** ** Sampling *)

Section Sampling.
Context {G : Type} `{!RandomState G}.

Lemma random_uniform_Ok lo hi n (g : G) l g' :
  random_uniform lo hi n g = Ok (l, g') -> length l = n.
Proof.
  unfold random_uniform. intros [= Hu].
  pose proof (uniform_length lo hi n g) as Hlen. by rewrite Hu in Hlen.
Qed.

Lemma random_choice_Ok a n p (g : G) l g' :
  random_choice a n p g = Ok (l, g') ->
  length l = n /\ Forall (fun v => In v a) l.
Proof.
  unfold random_choice. destruct (choice a n p g) as [[l0|] g0] eqn:Hc; [|done].
  intros [= -> ->]. split.
  - apply (choice_length a n p g). by rewrite Hc.
  - apply (choice_elem a n p g). by rewrite Hc.
Qed.

(** The angles behind the displacements of one call. *)
Lemma calc_next_steps_Ok self n (g : G) dx dy dz g' :
  calc_next_steps self n g = Ok ((dx, dy, dz), g') ->
  exists xy xz : list R,
    length xy = n /\ length xz = n /\
    dx = zip_with (fun a b => cos a * sin b * step_length self) xy xz /\
    dy = zip_with (fun a b => sin a * sin b * step_length self) xy xz /\
    dz = map (fun b => cos b * step_length self) xz /\
    (dimensions self = 1%Z -> Forall (fun a => a = 0 \/ a = PI) xy) /\
    (dimensions self = 1%Z \/ dimensions self = 2%Z -> xz = replicate n (PI / 2)).
Proof.
  unfold calc_next_steps. intros Hrun.
  apply bind_Ok in Hrun as (xy & g1 & Hxy & Hrun).
  apply bind_Ok in Hrun as (xz & g2 & Hxz & Hrun).
  apply ret_Ok in Hrun. injection Hrun as -> -> -> ->.
  exists xy, xz.
  assert (length xy = n /\ (dimensions self = 1%Z -> Forall (fun a => a = 0 \/ a = PI) xy))
    as [Hlxy H1].
  { destruct (Z.eqb_spec (dimensions self) 1) as [Hd|Hd].
    - apply random_choice_Ok in Hxy as [Hlen Hin]. split; [done|]. intros _.
      eapply Forall_impl; [exact Hin|]. simpl. intros a [<-|[<-|[]]]; auto.
    - split; [|done].
      destruct ((dimensions self =? 2)%Z || (dimensions self =? 3)%Z); [|done].
      destruct (angles_xy self).
      + by apply random_choice_Ok in Hxy as [Hlen _].
      + by apply random_uniform_Ok in Hxy. }
  assert (length xz = n /\
          (dimensions self = 1%Z \/ dimensions self = 2%Z -> xz = replicate n (PI / 2)))
    as [Hlxz H2].
  { destruct ((dimensions self =? 1)%Z || (dimensions self =? 2)%Z) eqn:Hd.
    - apply ret_Ok in Hxz. injection Hxz as -> ->.
      split; [by rewrite length_replicate | done].
    - apply orb_false_iff in Hd as [Hd1%Z.eqb_neq Hd2%Z.eqb_neq].
      split; [|by intros [|]].
      destruct (dimensions self =? 3)%Z; [|done].
      destruct (angles_xz self).
      + by apply random_choice_Ok in Hxz as [Hlen _].
      + by apply random_uniform_Ok in Hxz. }
  done.
Qed.

Lemma calc_next_steps_length self n (g : G) dx dy dz g' :
  calc_next_steps self n g = Ok ((dx, dy, dz), g') ->
  length dx = n /\ length dy = n /\ length dz = n.
Proof.
  intros (xy & xz & Hxy & Hxz & -> & -> & -> & _)%calc_next_steps_Ok.
  rewrite !length_zip_with, length_map. lia.
Qed.

(** Entry [k] of the three displacement arrays is one step. *)
Lemma calc_next_steps_lookup self n (g : G) dx dy dz g' k :
  calc_next_steps self n g = Ok ((dx, dy, dz), g') -> (k < n)%nat ->
  exists sx sy sz,
    dx !! k = Some sx /\ dy !! k = Some sy /\ dz !! k = Some sz /\
    is_step self sx sy sz.
Proof.
  intros (xy & xz & Hxy & Hxz & -> & -> & -> & H1 & H2)%calc_next_steps_Ok Hk.
  destruct (lookup_lt_is_Some_2 xy k) as [a Ha]; [lia|].
  destruct (lookup_lt_is_Some_2 xz k) as [b Hb]; [lia|].
  eexists _, _, _. rewrite !lookup_zip_with, list_lookup_fmap, Ha, Hb. simpl.
  repeat split. exists a, b. repeat split.
  - intros Hd. specialize (H1 Hd). by eapply Forall_lookup_1 in H1.
  - intros Hd. rewrite (H2 Hd) in Hb. by apply lookup_replicate in Hb as [-> _].
Qed.

(** With an invalid [dimensions] every call fails. *)
Lemma calc_next_steps_dimensions self n (g : G) :
  dimensions self <> 1%Z -> dimensions self <> 2%Z -> dimensions self <> 3%Z ->
  calc_next_steps self n g = Raise (ValueError_dimensions (dimensions self)).
Proof.
  intros H1%Z.eqb_neq H2%Z.eqb_neq H3%Z.eqb_neq.
  unfold calc_next_steps. rewrite H1, H2, H3. done.
Qed.
End Sampling.

(** ** Constraint checks *)

Lemma exceeds_false (lim : R * R) (v : R) :
  exceeds lim v = false <-> lim.1 <= v <= lim.2.
Proof.
  unfold exceeds. rewrite orb_false_iff, !bool_decide_eq_false. lra.
Qed.

Lemma violates_false (self : config) (vx vy vz : R) :
  violates self vx vy vz = false <->
  within (x_limits self) vx /\ within (y_limits self) vy /\ within (z_limits self) vz.
Proof.
  unfold violates, within. rewrite !orb_false_iff.
  destruct (x_limits self), (y_limits self), (z_limits self); simpl;
    rewrite ?exceeds_false; tauto.
Qed.

Lemma add_violations_lookup limits (curr : list R) (cv : list bool) (w : nat) b c :
  cv !! w = Some b -> curr !! w = Some c ->
  add_violations limits curr cv !! w
  = Some (b || from_option (fun lim => exceeds lim c) false limits).
Proof.
  intros Hb Hc. destruct limits as [lim|]; simpl.
  - rewrite lookup_zip_with, Hb. simpl. by rewrite list_lookup_fmap, Hc.
  - by rewrite orb_false_r.
Qed.

Lemma length_add_violations limits (curr : list R) (cv : list bool) :
  length curr = length cv -> length (add_violations limits curr cv) = length cv.
Proof.
  intros Hlen. destruct limits; simpl; [|done].
  rewrite length_zip_with, length_map. lia.
Qed.

Lemma check_constraints_Ok (self : config) (xs ys zs : list R) (v : list bool) :
  check_constraints self xs ys zs = Ok v ->
  length xs = length ys /\ length ys = length zs /\ length v = length xs /\
  forall w vx vy vz,
    xs !! w = Some vx -> ys !! w = Some vy -> zs !! w = Some vz ->
    v !! w = Some (violates self vx vy vz).
Proof.
  unfold check_constraints.
  destruct (Nat.eqb_spec (length xs) (length ys)) as [Hxy|]; [|done].
  destruct (Nat.eqb_spec (length ys) (length zs)) as [Hyz|]; [|done].
  simpl. intros [= <-]. repeat split; try done.
  - set (v0 := replicate (length xs) false).
    assert (length v0 = length xs) as H0 by apply length_replicate.
    set (v1 := add_violations (x_limits self) xs v0).
    assert (length v1 = length xs) as H1
      by (unfold v1; rewrite length_add_violations; congruence).
    set (v2 := add_violations (y_limits self) ys v1).
    assert (length v2 = length xs) as H2
      by (unfold v2; rewrite length_add_violations; congruence).
    rewrite length_add_violations; congruence.
  - intros w vx vy vz Hx Hy Hz. unfold violates.
    assert (replicate (length xs) false !! w = Some false) as H0
      by (apply lookup_replicate_2; by eapply lookup_lt_Some).
    pose proof (add_violations_lookup (x_limits self) xs _ w _ _ H0 Hx) as H1.
    pose proof (add_violations_lookup (y_limits self) ys _ w _ _ H1 Hy) as H2.
    pose proof (add_violations_lookup (z_limits self) zs _ w _ _ H2 Hz) as H3.
    rewrite H3. done.
Qed.

Lemma check_constraints_total (self : config) (xs ys zs : list R) :
  length xs = length ys -> length ys = length zs ->
  exists v, check_constraints self xs ys zs = Ok v.
Proof.
  intros Hxy Hyz. unfold check_constraints.
  rewrite Hxy, Hyz, !Nat.eqb_refl. simpl. eauto.
Qed.

(** Without limits nothing is ever flagged. *)
Lemma check_constraints_unlimited (self : config) (xs ys zs : list R) (v : list bool) :
  x_limits self = None -> y_limits self = None -> z_limits self = None ->
  check_constraints self xs ys zs = Ok v -> any v = false.
Proof.
  intros Hx Hy Hz. unfold check_constraints. rewrite Hx, Hy, Hz.
  destruct (_ && _); [|done]. simpl. intros [= <-].
  apply any_false. by intros w b [-> _]%lookup_replicate.
Qed.

(** ** Rows and cells *)

Lemma cell_Some (a : list (list R)) (s w : nat) (v : R) :
  cell a s w = Some v <-> exists r, a !! s = Some r /\ r !! w = Some v.
Proof. unfold cell. apply bind_Some. Qed.

Lemma row_lookup (a : list (list R)) (s : nat) (r : list R) :
  a !! s = Some r -> row a s = r.
Proof. apply list_lookup_total_correct. Qed.

Lemma well_shaped_row (self : config) (a : list (list R)) (s : nat) :
  well_shaped self a -> (s <= step_number self)%nat ->
  a !! s = Some (row a s) /\ length (row a s) = number_of_walks self.
Proof.
  intros [Hlen Hrows] Hs.
  destruct (lookup_lt_is_Some_2 a s) as [r Hr]; [lia|].
  rewrite (row_lookup _ _ _ Hr). split; [done|].
  by eapply Forall_lookup_1 in Hrows.
Qed.

Lemma cell_row (a : list (list R)) (s w : nat) : cell a s w = row a s !! w.
Proof.
  unfold cell, row. rewrite list_lookup_total_alt.
  by destruct (a !! s).
Qed.

Lemma cell_is_Some (self : config) (a : list (list R)) (s w : nat) :
  well_shaped self a -> (s <= step_number self)%nat ->
  (w < number_of_walks self)%nat -> is_Some (cell a s w).
Proof.
  intros Ha Hs Hw. rewrite cell_row.
  apply lookup_lt_is_Some_2.
  destruct (well_shaped_row self a s Ha Hs) as [_ ->]. done.
Qed.

Lemma advance_other (a : list (list R)) (cs : nat) (d : list R) (s : nat) :
  s <> S cs -> advance a cs d !! s = a !! s.
Proof. intros Hs. unfold advance. by rewrite list_lookup_insert_ne. Qed.

Lemma advance_well_shaped (self : config) (a : list (list R)) (cs : nat) (d : list R) :
  well_shaped self a -> (cs < step_number self)%nat ->
  length d = number_of_walks self -> well_shaped self (advance a cs d).
Proof.
  intros Ha Hcs Hd. destruct (well_shaped_row self a cs Ha) as [_ Hr]; [lia|].
  destruct Ha as [Hlen Hrows]. unfold advance. split.
  - by rewrite length_insert.
  - apply Forall_insert; [done|]. rewrite length_zip_with. lia.
Qed.

Lemma advance_cell (self : config) (a : list (list R)) (cs : nat) (d : list R) (w : nat) :
  well_shaped self a -> (cs < step_number self)%nat ->
  cell (advance a cs d) (S cs) w = zip_with Rplus (row a cs) d !! w.
Proof.
  intros [Hlen _] Hcs. unfold cell, advance.
  rewrite list_lookup_insert_eq by lia. done.
Qed.

Lemma advance_masked_other (a : list (list R)) (cs : nat) (m : list bool)
    (d : list R) (s : nat) :
  s <> S cs -> advance_masked a cs m d !! s = a !! s.
Proof. intros Hs. unfold advance_masked. by rewrite list_lookup_insert_ne. Qed.

Lemma advance_masked_well_shaped (self : config) (a : list (list R)) (cs : nat)
    (m : list bool) (d : list R) :
  well_shaped self a -> (cs < step_number self)%nat ->
  well_shaped self (advance_masked a cs m d).
Proof.
  intros Ha Hcs. destruct (well_shaped_row self a (S cs) Ha) as [_ Hr]; [lia|].
  destruct Ha as [Hlen Hrows]. unfold advance_masked. split.
  - by rewrite length_insert.
  - apply Forall_insert; [done|]. by rewrite length_mask_assign.
Qed.

Lemma advance_masked_unflagged (a : list (list R)) (cs : nat) (m : list bool)
    (d : list R) (w : nat) :
  m !! w = Some false ->
  cell (advance_masked a cs m d) (S cs) w = cell a (S cs) w.
Proof.
  intros Hw. unfold cell, advance_masked.
  destruct (decide (S cs < length a)%nat) as [Hlt|Hge].
  - rewrite list_lookup_insert_eq by done.
    destruct (lookup_lt_is_Some_2 a (S cs) Hlt) as [r Hr].
    rewrite Hr, (row_lookup _ _ _ Hr). simpl. by apply mask_assign_unflagged.
  - rewrite list_insert_ge by lia. done.
Qed.

Lemma advance_masked_flagged (self : config) (a : list (list R)) (cs : nat)
    (m : list bool) (d : list R) (w : nat) :
  well_shaped self a -> (cs < step_number self)%nat ->
  length m = number_of_walks self -> length d = mask_count m ->
  m !! w = Some true ->
  cell (advance_masked a cs m d) (S cs) w
  = (v ← cell a cs w; δ ← d !! mask_count (take w m); Some (v + δ)).
Proof.
  intros Ha Hcs Hm Hd Hw.
  destruct (well_shaped_row self a cs Ha) as [Hrc Hlc]; [lia|].
  destruct (well_shaped_row self a (S cs) Ha) as [Hrs Hls]; [lia|].
  rewrite (cell_row a cs).
  destruct Ha as [Hlen _]. unfold cell, advance_masked.
  rewrite list_lookup_insert_eq by lia. simpl.
  rewrite mask_assign_flagged; try done; try congruence.
  - rewrite lookup_zip_with, mask_select_flagged by (done || congruence). done.
  - rewrite length_zip_with, length_mask_select by congruence. lia.
Qed.

(** ** One retry *)

Lemma mask_assign_nil {A} (m : list bool) (vals : list A) : mask_assign m [] vals = [].
Proof. by destruct m as [|[] m]. Qed.

Lemma row_advance_masked (a : list (list R)) (cs : nat) (m : list bool) (d : list R) :
  row (advance_masked a cs m d) (S cs)
  = mask_assign m (row a (S cs)) (zip_with Rplus (mask_select m (row a cs)) d).
Proof.
  unfold advance_masked, row.
  destruct (decide (S cs < length a)%nat) as [Hlt|Hge].
  - by rewrite list_lookup_total_insert_eq.
  - rewrite list_insert_ge by lia.
    rewrite (list_lookup_total_alt a (S cs)), lookup_ge_None_2 by lia.
    simpl. by rewrite mask_assign_nil.
Qed.

Lemma cell_advance_masked_unflagged (a : list (list R)) (cs : nat) (m : list bool)
    (d : list R) (w : nat) :
  m !! w = Some false ->
  cell (advance_masked a cs m d) (S cs) w = cell a (S cs) w.
Proof.
  intros Hw. rewrite !cell_row, row_advance_masked. by apply mask_assign_unflagged.
Qed.

(** Rechecking after a masked update can only clear flags. *)
Lemma masked_check_shrinks self cs st dx dy dz cv' :
  consistent self cs st ->
  check_row self (moved_masked (ls_coords st) cs (ls_violated st) dx dy dz) cs = Ok cv' ->
  length cv' = length (ls_violated st) /\
  forall w, cv' !! w = Some true -> ls_violated st !! w = Some true.
Proof.
  unfold consistent, check_row. simpl. rewrite !row_advance_masked.
  intros (Hxy & Hyz & Hlen & Hcv)%check_constraints_Ok
         (Hxy' & Hyz' & Hlen' & Hcv')%check_constraints_Ok.
  assert (length cv' = length (ls_violated st)) as Heq
    by (by rewrite Hlen, Hlen', length_mask_assign).
  split; [done|]. intros w Hw.
  destruct (lookup_lt_is_Some_2 (ls_violated st) w) as [[] Hb];
    [rewrite <- Heq; by eapply lookup_lt_Some | done |].
  destruct (lookup_lt_is_Some_2 (row (traj_x (ls_coords st)) (S cs)) w) as [vx Hvx];
    [rewrite <- Hlen; by eapply lookup_lt_Some|].
  destruct (lookup_lt_is_Some_2 (row (traj_y (ls_coords st)) (S cs)) w) as [vy Hvy];
    [rewrite <- Hxy, <- Hlen; by eapply lookup_lt_Some|].
  destruct (lookup_lt_is_Some_2 (row (traj_z (ls_coords st)) (S cs)) w) as [vz Hvz];
    [rewrite <- Hyz, <- Hxy, <- Hlen; by eapply lookup_lt_Some|].
  rewrite (Hcv' w vx vy vz) in Hw by (by rewrite mask_assign_unflagged).
  rewrite (Hcv _ _ _ _ Hvx Hvy Hvz) in Hb. congruence.
Qed.

Section Retry.
Context {G : Type} `{!RandomState G}.
Implicit Types (self : config) (st : loop_state) (g : G).

Lemma exclude_iteration_Ok self cs st g st' g' :
  exclude_iteration self cs st g = Ok (st', g') ->
  exists dx dy dz,
    calc_next_steps self (mask_count (ls_violated st)) g = Ok ((dx, dy, dz), g') /\
    ls_coords st' = moved_masked (ls_coords st) cs (ls_violated st) dx dy dz /\
    consistent self cs st' /\
    ls_counter st' = mask_incr (ls_violated st') (ls_counter st) /\
    exhausted self (ls_violated st') (ls_counter st') = false.
Proof.
  unfold exclude_iteration. intros Hrun.
  apply bind_Ok in Hrun as ([[dx dy] dz] & g1 & Hcalc & Hrun).
  apply bind_Ok in Hrun as (cv' & g2 & [Hcheck ->]%lift_Ok & Hrun).
  destruct (exhausted _ _ _) eqn:Hex; [done|].
  apply ret_Ok in Hrun. injection Hrun as -> ->.
  exists dx, dy, dz. done.
Qed.

(** A retry leaves every other row, and every unflagged walk, as it was. *)
Lemma exclude_iteration_frame self cs st g st' g' :
  exclude_iteration self cs st g = Ok (st', g') ->
  same_rows_except cs (ls_coords st) (ls_coords st') /\
  forall w, ls_violated st !! w = Some false ->
            same_walk (S cs) w (ls_coords st) (ls_coords st').
Proof.
  intros (dx & dy & dz & _ & -> & _)%exclude_iteration_Ok. split.
  - intros s Hs. simpl. by rewrite !advance_masked_other.
  - intros w Hw. unfold same_walk. simpl.
    by rewrite !cell_advance_masked_unflagged.
Qed.

(** A walk flagged after a retry was flagged before it. *)
Lemma exclude_iteration_shrinks self cs st g st' g' :
  consistent self cs st ->
  exclude_iteration self cs st g = Ok (st', g') ->
  length (ls_violated st') = length (ls_violated st) /\
  forall w, ls_violated st' !! w = Some true -> ls_violated st !! w = Some true.
Proof.
  intros Hcons (dx & dy & dz & _ & Ht' & Hcons' & _)%exclude_iteration_Ok.
  unfold consistent in Hcons'. rewrite Ht' in Hcons'.
  by eapply masked_check_shrinks.
Qed.
End Retry.

(** ** The rejection loop *)

Lemma same_rows_except_trans cs t1 t2 t3 :
  same_rows_except cs t1 t2 -> same_rows_except cs t2 t3 -> same_rows_except cs t1 t3.
Proof.
  intros H12 H23 s Hs. destruct (H12 s Hs) as (? & ? & ?), (H23 s Hs) as (? & ? & ?).
  repeat split; congruence.
Qed.

Lemma same_walk_trans s w t1 t2 t3 :
  same_walk s w t1 t2 -> same_walk s w t2 t3 -> same_walk s w t1 t3.
Proof. intros (? & ? & ?) (? & ? & ?). repeat split; congruence. Qed.

Lemma same_rows_cell cs t t' s w :
  same_rows_except cs t t' -> s <> S cs -> same_walk s w t t'.
Proof.
  intros Hsame Hs. destruct (Hsame s Hs) as (Hx & Hy & Hz).
  unfold same_walk, cell. by rewrite Hx, Hy, Hz.
Qed.

Lemma consistent_lookup self cs st w vx vy vz :
  consistent self cs st ->
  cell (traj_x (ls_coords st)) (S cs) w = Some vx ->
  cell (traj_y (ls_coords st)) (S cs) w = Some vy ->
  cell (traj_z (ls_coords st)) (S cs) w = Some vz ->
  ls_violated st !! w = Some (violates self vx vy vz).
Proof.
  intros (_ & _ & _ & Hcv)%check_constraints_Ok. rewrite !cell_row. apply Hcv.
Qed.

Lemma consistent_length self cs st :
  shaped self (ls_coords st) -> (cs < step_number self)%nat ->
  consistent self cs st -> length (ls_violated st) = number_of_walks self.
Proof.
  intros (Hx & _) Hcs (_ & _ & -> & _)%check_constraints_Ok.
  by apply (well_shaped_row self); [|lia].
Qed.

Lemma shaped_check_row self t cs :
  shaped self t -> (cs < step_number self)%nat ->
  exists cv, check_row self t cs = Ok cv.
Proof.
  intros (Hx & Hy & Hz) Hcs. apply check_constraints_total.
  - destruct (well_shaped_row self _ (S cs) Hx) as [_ ->]; [lia|].
    by destruct (well_shaped_row self _ (S cs) Hy) as [_ ->]; [lia|].
  - destruct (well_shaped_row self _ (S cs) Hy) as [_ ->]; [lia|].
    by destruct (well_shaped_row self _ (S cs) Hz) as [_ ->]; [lia|].
Qed.

Section Loop.
Context {G : Type} `{!RandomState G}.
Implicit Types (self : config) (st : loop_state) (g : G).

Lemma exclude_loop_done fuel self cs st g :
  any (ls_violated st) = false ->
  exclude_loop fuel self cs st g = Ok (ls_coords st, g).
Proof. intros Hany. destruct fuel; simpl; by rewrite Hany. Qed.

Lemma exclude_loop_retry fuel self cs st g :
  any (ls_violated st) = true ->
  exclude_loop (S fuel) self cs st g
  = (exclude_iteration self cs st ≫= exclude_loop fuel self cs) g.
Proof. intros Hany. simpl. by rewrite Hany. Qed.

(** Structure of a successful run of the loop. *)
Lemma exclude_loop_ind_Ok (P : loop_state -> G -> Prop) self cs t' g' :
  (forall st, any (ls_violated st) = false -> ls_coords st = t' -> P st g') ->
  (forall st g st1 g1,
      any (ls_violated st) = true ->
      exclude_iteration self cs st g = Ok (st1, g1) ->
      P st1 g1 -> P st g) ->
  forall fuel st g, exclude_loop fuel self cs st g = Ok (t', g') -> P st g.
Proof.
  intros Hdone Hretry. induction fuel as [|fuel IH]; intros st g Hrun.
  - simpl in Hrun. destruct (any (ls_violated st)) eqn:Hany; [done|].
    apply ret_Ok in Hrun. injection Hrun as Ht Hg. subst t' g'. by apply Hdone.
  - destruct (any (ls_violated st)) eqn:Hany.
    + rewrite exclude_loop_retry in Hrun by done.
      apply bind_Ok in Hrun as (st1 & g1 & Hiter & Hrun). eauto.
    + rewrite exclude_loop_done in Hrun by done.
      injection Hrun as Ht Hg. subst t' g'. by apply Hdone.
Qed.

Lemma exclude_loop_frame_aux self cs fuel st g t' g' :
  exclude_loop fuel self cs st g = Ok (t', g') ->
  consistent self cs st ->
  same_rows_except cs (ls_coords st) t' /\
  forall w, ls_violated st !! w = Some false ->
            same_walk (S cs) w (ls_coords st) t'.
Proof.
  revert fuel st g.
  apply (exclude_loop_ind_Ok
           (fun st g => consistent self cs st ->
              same_rows_except cs (ls_coords st) t' /\
              forall w, ls_violated st !! w = Some false ->
                        same_walk (S cs) w (ls_coords st) t')).
  - intros st _ <- _. split; [by intros s _|by intros w _].
  - intros st g st1 g1 _ Hiter IH Hcons.
    destruct (exclude_iteration_frame _ _ _ _ _ _ Hiter) as [Hrows Hwalks].
    destruct (exclude_iteration_shrinks _ _ _ _ _ _ Hcons Hiter) as [Hlen Hsub].
    apply exclude_iteration_Ok in Hiter as (_ & _ & _ & _ & _ & Hcons1 & _).
    destruct (IH Hcons1) as [Hrows1 Hwalks1]. split.
    + by eapply same_rows_except_trans.
    + intros w Hw. eapply same_walk_trans; [by apply Hwalks|].
      apply Hwalks1.
      destruct (lookup_lt_is_Some_2 (ls_violated st1) w) as [[] Hb];
        [rewrite Hlen; by eapply lookup_lt_Some | | done].
      apply Hsub in Hb. congruence.
Qed.

(** When the loop ends, the check of row [curr_step+1] flags nobody. *)
Lemma exclude_loop_exit self cs fuel st g t' g' :
  exclude_loop fuel self cs st g = Ok (t', g') ->
  consistent self cs st ->
  exists cv, check_row self t' cs = Ok cv /\ any cv = false.
Proof.
  revert fuel st g.
  apply (exclude_loop_ind_Ok
           (fun st g => consistent self cs st ->
              exists cv, check_row self t' cs = Ok cv /\ any cv = false)).
  - intros st Hany <- Hcons. eauto.
  - intros st g st1 g1 _ Hiter IH _.
    apply exclude_iteration_Ok in Hiter as (_ & _ & _ & _ & _ & Hcons1 & _). auto.
Qed.

Lemma exclude_iteration_shaped self cs st g st' g' :
  shaped self (ls_coords st) -> (cs < step_number self)%nat ->
  exclude_iteration self cs st g = Ok (st', g') ->
  shaped self (ls_coords st').
Proof.
  intros (Hx & Hy & Hz) Hcs (dx & dy & dz & _ & -> & _)%exclude_iteration_Ok.
  repeat split; simpl; by apply advance_masked_well_shaped.
Qed.

Lemma exclude_iteration_stepped self cs st g st' g' :
  shaped self (ls_coords st) -> (cs < step_number self)%nat ->
  consistent self cs st -> stepped self (ls_coords st) cs ->
  exclude_iteration self cs st g = Ok (st', g') ->
  stepped self (ls_coords st') cs.
Proof.
  intros Hshape Hcs Hcons Hstep Hiter.
  pose proof (consistent_length _ _ _ Hshape Hcs Hcons) as Hlen.
  destruct (exclude_iteration_frame _ _ _ _ _ _ Hiter) as [Hrows Hwalks].
  apply exclude_iteration_Ok in Hiter as (dx & dy & dz & Hcalc & Ht' & _).
  destruct (calc_next_steps_length _ _ _ _ _ _ _ Hcalc) as (Hdx & Hdy & Hdz).
  destruct Hshape as (Hx & Hy & Hz).
  intros w vx vy vz Hvx Hvy Hvz.
  destruct (same_rows_cell cs _ _ cs w Hrows) as (Hcx & Hcy & Hcz); [lia|].
  rewrite Hcx in Hvx. rewrite Hcy in Hvy. rewrite Hcz in Hvz.
  assert (w < number_of_walks self)%nat as Hw.
  { rewrite cell_row in Hvx. apply lookup_lt_Some in Hvx.
    by destruct (well_shaped_row self _ cs Hx) as [_ <-]; [lia|]. }
  destruct (lookup_lt_is_Some_2 (ls_violated st) w) as [[] Hb]; [lia| |].
  - pose proof (mask_rank_lt _ _ Hb) as Hk.
    destruct (calc_next_steps_lookup _ _ _ _ _ _ _ _ Hcalc Hk)
      as (sx & sy & sz & Hsx & Hsy & Hsz & Hs).
    exists sx, sy, sz. split; [done|]. rewrite Ht'. simpl.
    rewrite !(advance_masked_flagged self) by done.
    rewrite Hvx, Hvy, Hvz. simpl. by rewrite Hsx, Hsy, Hsz.
  - destruct (Hstep w vx vy vz Hvx Hvy Hvz) as (sx & sy & sz & Hs & Hsx & Hsy & Hsz).
    destruct (Hwalks w Hb) as (Hwx & Hwy & Hwz).
    exists sx, sy, sz. rewrite Hwx, Hwy, Hwz. done.
Qed.

Lemma exclude_loop_stepped self cs fuel st g t' g' :
  exclude_loop fuel self cs st g = Ok (t', g') ->
  shaped self (ls_coords st) -> (cs < step_number self)%nat ->
  consistent self cs st -> stepped self (ls_coords st) cs ->
  shaped self t' /\ stepped self t' cs.
Proof.
  intros Hrun Hshape Hcs. revert fuel st g Hrun Hshape.
  apply (exclude_loop_ind_Ok
           (fun st g => shaped self (ls_coords st) ->
              consistent self cs st -> stepped self (ls_coords st) cs ->
              shaped self t' /\ stepped self t' cs)).
  - by intros st _ <-.
  - intros st g st1 g1 _ Hiter IH Hshape Hcons Hstep.
    apply IH.
    + by eapply exclude_iteration_shaped.
    + by apply exclude_iteration_Ok in Hiter as (_ & _ & _ & _ & _ & ? & _).
    + by eapply exclude_iteration_stepped.
Qed.
End Loop.

(** ** One step, all steps *)

Lemma agree_upto_refl j t : agree_upto j t t.
Proof. by intros s _. Qed.

Lemma agree_upto_trans j t1 t2 t3 :
  agree_upto j t1 t2 -> agree_upto j t2 t3 -> agree_upto j t1 t3.
Proof.
  intros H12 H23 s Hs. destruct (H12 s Hs) as (? & ? & ?), (H23 s Hs) as (? & ? & ?).
  repeat split; congruence.
Qed.

Lemma agree_upto_le j k t t' : (j <= k)%nat -> agree_upto k t t' -> agree_upto j t t'.
Proof. intros Hjk H s Hs. apply H. lia. Qed.

Lemma same_rows_agree cs t t' : same_rows_except cs t t' -> agree_upto cs t t'.
Proof. intros H s Hs. apply H. lia. Qed.

Lemma agree_upto_cell j t t' s w : agree_upto j t t' -> (s <= j)%nat -> same_walk s w t t'.
Proof.
  intros H Hs. destruct (H s Hs) as (Hx & Hy & Hz).
  unfold same_walk, cell. by rewrite Hx, Hy, Hz.
Qed.

Lemma agree_upto_row j t t' s :
  agree_upto j t t' -> (s <= j)%nat ->
  row (traj_x t') s = row (traj_x t) s /\
  row (traj_y t') s = row (traj_y t) s /\
  row (traj_z t') s = row (traj_z t) s.
Proof.
  intros H Hs. destruct (H s Hs) as (Hx & Hy & Hz).
  unfold row. by rewrite !list_lookup_total_alt, Hx, Hy, Hz.
Qed.

Lemma agree_upto_stepped self j t t' s :
  agree_upto j t t' -> (S s <= j)%nat -> stepped self t s -> stepped self t' s.
Proof.
  intros H Hs Hstep w vx vy vz.
  destruct (agree_upto_cell j t t' s w H) as (-> & -> & ->); [lia|].
  destruct (agree_upto_cell j t t' (S s) w H) as (-> & -> & ->); [lia|].
  apply Hstep.
Qed.

Lemma agree_upto_checked self j t t' s :
  agree_upto j t t' -> (S s <= j)%nat -> checked self t s -> checked self t' s.
Proof.
  intros H Hs (cv & Hcheck & Hany). exists cv. split; [|done].
  unfold check_row in *.
  by destruct (agree_upto_row j t t' (S s) H Hs) as (-> & -> & ->).
Qed.

Section Steps.
Context {G : Type} `{!RandomState G}.
Implicit Types (self : config) (t : trajectory) (g : G).

(** The first attempt of a step. *)
Lemma moved_spec self cs t g dx dy dz g' :
  shaped self t -> (cs < step_number self)%nat ->
  calc_next_steps self (number_of_walks self) g = Ok ((dx, dy, dz), g') ->
  shaped self (moved t cs dx dy dz) /\
  same_rows_except cs t (moved t cs dx dy dz) /\
  stepped self (moved t cs dx dy dz) cs.
Proof.
  intros (Hx & Hy & Hz) Hcs Hcalc.
  destruct (calc_next_steps_length _ _ _ _ _ _ _ Hcalc) as (Hdx & Hdy & Hdz).
  split; [|split].
  - repeat split; simpl; by apply advance_well_shaped.
  - intros s Hs. simpl. by rewrite !advance_other.
  - intros w vx vy vz. unfold cell at 1 2 3. simpl.
    rewrite !advance_other by lia. fold (cell (traj_x t) cs w).
    fold (cell (traj_y t) cs w). fold (cell (traj_z t) cs w).
    intros Hvx Hvy Hvz.
    assert (w < number_of_walks self)%nat as Hw.
    { rewrite cell_row in Hvx. apply lookup_lt_Some in Hvx.
      by destruct (well_shaped_row self _ cs Hx) as [_ <-]; [lia|]. }
    destruct (calc_next_steps_lookup _ _ _ _ _ _ _ _ Hcalc Hw)
      as (sx & sy & sz & Hsx & Hsy & Hsz & Hs).
    exists sx, sy, sz. split; [done|].
    rewrite !(advance_cell self), !lookup_zip_with by done.
    rewrite <- !cell_row, Hvx, Hvy, Hvz. simpl. by rewrite Hsx, Hsy, Hsz.
Qed.

Lemma walk_step_Ok self cs t g t' g' :
  shaped self t -> (cs < step_number self)%nat ->
  walk_step self cs t g = Ok (t', g') ->
  shaped self t' /\ same_rows_except cs t t' /\ stepped self t' cs /\
  (wall_mode self = "exclude" -> checked self t' cs).
Proof.
  intros Hshape Hcs. unfold walk_step. intros Hrun.
  apply bind_Ok in Hrun as ([[dx dy] dz] & g1 & Hcalc & Hrun).
  apply bind_Ok in Hrun as (cv & g2 & [Hcheck ->]%lift_Ok & Hrun).
  destruct (moved_spec _ _ _ _ _ _ _ _ Hshape Hcs Hcalc) as (Hshape1 & Hrows1 & Hstep1).
  destruct (String.eqb_spec (wall_mode self) "exclude") as [Hex|Hex].
  - set (st := LoopState (moved t cs dx dy dz) cv
                 (replicate (number_of_walks self) 0%Z)) in *.
    assert (consistent self cs st) as Hcons by exact Hcheck.
    destruct (exclude_loop_stepped _ _ _ _ _ _ _ Hrun Hshape1 Hcs Hcons Hstep1)
      as [Hshape' Hstep'].
    destruct (exclude_loop_frame_aux _ _ _ _ _ _ _ Hrun Hcons) as [Hrows' _].
    split; [done|]. split; [by eapply same_rows_except_trans|].
    split; [done|]. intros _. by eapply exclude_loop_exit.
  - destruct (String.eqb_spec (wall_mode self) "reflect"); [|done].
    apply ret_Ok in Hrun. injection Hrun as Ht Hg. subst t' g'.
    split; [done|]. split; [done|]. split; [done|]. by intros ?.
Qed.

Lemma for_each_walk_step_Ok self k : forall j t g t' g',
  (j + k <= step_number self)%nat -> shaped self t ->
  for_each (walk_step self) (seq j k) t g = Ok (t', g') ->
  shaped self t' /\ agree_upto j t t' /\
  forall s, (j <= s < j + k)%nat ->
    stepped self t' s /\ (wall_mode self = "exclude" -> checked self t' s).
Proof.
  induction k as [|k IH]; intros j t g t' g' Hjk Hshape Hrun.
  - apply ret_Ok in Hrun. injection Hrun as Ht Hg. subst t' g'.
    split; [done|]. split; [apply agree_upto_refl|]. intros s Hs. lia.
  - simpl in Hrun. apply bind_Ok in Hrun as (t1 & g1 & Hstep & Hrun).
    apply walk_step_Ok in Hstep as (Hshape1 & Hrows1 & Hstep1 & Hcheck1);
      [|done|lia].
    apply IH in Hrun as (Hshape' & Hagree' & Hrest); [|lia|done].
    split; [done|]. split.
    + eapply agree_upto_trans; [by apply same_rows_agree|].
      eapply agree_upto_le; [|done]. lia.
    + intros s Hs. destruct (decide (s = j)) as [->|Hne].
      * split.
        -- by eapply agree_upto_stepped.
        -- intros Hex. eapply agree_upto_checked; eauto.
      * apply Hrest. lia.
Qed.
End Steps.

(** ** The whole generation *)

Lemma broadcast_to_length (n : nat) (s : start) (r : list R) :
  broadcast_to n s = Ok r -> length r = n.
Proof.
  destruct s as [v|l]; simpl.
  - intros [= <-]. apply length_replicate.
  - destruct (Nat.eqb_spec (length l) n) as [Hl|_]; [by intros [= <-]|].
    destruct l as [|v [|]]; try done. intros [= <-]. apply length_replicate.
Qed.

Lemma initial_array_Ok (self : config) (s : start) (a : list (list R)) :
  initial_array self s = Ok a ->
  exists r, broadcast_to (number_of_walks self) s = Ok r /\
            a !! 0%nat = Some r /\ well_shaped self a.
Proof.
  unfold initial_array.
  destruct (broadcast_to _ s) as [r|] eqn:Hr; [|done]. intros [= <-].
  exists r. split; [done|]. split; [done|]. split; simpl.
  - by rewrite length_replicate.
  - constructor; [by eapply broadcast_to_length|].
    apply Forall_replicate, length_replicate.
Qed.

Section Generation.
Context {G : Type} `{!RandomState G}.
Implicit Types (self : config) (t : trajectory) (g : G).

Lemma generate_walk_coordinates_unfold self g :
  generate_walk_coordinates self g
  = match initial_coordinates self with
    | Ok t0 => for_each (walk_step self) (seq 0 (step_number self)) t0 g
    | Raise e => Raise e
    end.
Proof.
  unfold generate_walk_coordinates, initial_coordinates, mbind, M_bind, lift.
  destruct (initial_array self (start_x self)); [|done].
  destruct (initial_array self (start_y self)); [|done].
  by destruct (initial_array self (start_z self)).
Qed.

Lemma initial_coordinates_shaped self t0 :
  initial_coordinates self = Ok t0 -> shaped self t0.
Proof.
  unfold initial_coordinates.
  destruct (initial_array self (start_x self)) as [x|] eqn:Hx; [|done].
  destruct (initial_array self (start_y self)) as [y|] eqn:Hy; [|done].
  destruct (initial_array self (start_z self)) as [z|] eqn:Hz; [|done].
  intros [= <-].
  apply initial_array_Ok in Hx as (_ & _ & _ & ?).
  apply initial_array_Ok in Hy as (_ & _ & _ & ?).
  apply initial_array_Ok in Hz as (_ & _ & _ & ?). done.
Qed.

(** What a successful generation has established. *)
Lemma generate_walk_coordinates_Ok self g t g' :
  generate_walk_coordinates self g = Ok (t, g') ->
  exists t0,
    initial_coordinates self = Ok t0 /\ shaped self t /\ agree_upto 0 t0 t /\
    forall s, (s < step_number self)%nat ->
      stepped self t s /\ (wall_mode self = "exclude" -> checked self t s).
Proof.
  rewrite generate_walk_coordinates_unfold.
  destruct (initial_coordinates self) as [t0|] eqn:Hinit; [|done].
  intros Hrun. exists t0. split; [done|].
  apply for_each_walk_step_Ok in Hrun as (Hshape & Hagree & Hsteps);
    [|lia|by apply initial_coordinates_shaped].
  split; [done|]. split; [done|]. intros s Hs. apply Hsteps. lia.
Qed.

Lemma generate_walk_coordinates_shaped self g t g' :
  generate_walk_coordinates self g = Ok (t, g') -> shaped self t.
Proof. by intros (t0 & _ & ? & _)%generate_walk_coordinates_Ok. Qed.
End Generation.

(** ** The retry counter and the loop budget *)

Lemma masked_counted self cs st dx dy dz cv' K :
  consistent self cs st -> counted K st ->
  check_row self (moved_masked (ls_coords st) cs (ls_violated st) dx dy dz) cs = Ok cv' ->
  length (mask_incr cv' (ls_counter st)) = length cv' /\
  forall w, cv' !! w = Some true ->
            mask_incr cv' (ls_counter st) !! w = Some (K + 1)%Z.
Proof.
  intros Hcons [Hlen HK] Hcheck.
  destruct (masked_check_shrinks _ _ _ _ _ _ _ Hcons Hcheck) as [Hlen' Hsub].
  split; [apply length_mask_incr; congruence|].
  intros w Hw. by apply (mask_incr_lookup _ _ _ true), HK, Hsub.
Qed.

Section Counter.
Context {G : Type} `{!RandomState G}.
Implicit Types (self : config) (st : loop_state) (g : G).

Lemma exclude_iteration_counted self cs st g st' g' K :
  consistent self cs st -> counted K st ->
  exclude_iteration self cs st g = Ok (st', g') ->
  consistent self cs st' /\ counted (K + 1) st' /\
  (any (ls_violated st') = true -> (K + 1 < constraint_counter self)%Z).
Proof.
  intros Hcons HK (dx & dy & dz & _ & Ht' & Hcons' & Hcnt & Hex)%exclude_iteration_Ok.
  split; [done|].
  pose proof Hcons' as Hcheck. unfold consistent in Hcheck. rewrite Ht' in Hcheck.
  destruct (masked_counted _ _ _ _ _ _ _ _ Hcons HK Hcheck) as [Hlen Hval].
  rewrite <- Hcnt in Hlen, Hval. split; [done|].
  intros (w & Hw)%any_true.
  destruct (Z.ltb_spec (K + 1) (constraint_counter self)) as [|Hge]; [done|].
  assert (exhausted self (ls_violated st') (ls_counter st') = true); [|congruence].
  apply exhausted_true. exists w, (K + 1)%Z.
  split; [done|]. split; [by apply Hval | lia].
Qed.

Lemma retries_counted self cs k st g st' g' : forall K,
  retries self cs k st g st' g' ->
  consistent self cs st -> counted K st ->
  consistent self cs st' /\ counted (K + Z.of_nat k) st' /\
  ((0 < k)%nat -> any (ls_violated st') = true ->
   (K + Z.of_nat k < constraint_counter self)%Z).
Proof.
  intros K Hrun. revert K.
  induction Hrun as [st g|k st g st1 g1 st2 g2 Hany Hiter Hrun IH]; intros K Hcons HK.
  - rewrite Z.add_0_r. split; [done|]. split; [done|]. lia.
  - destruct (exclude_iteration_counted _ _ _ _ _ _ _ Hcons HK Hiter)
      as (Hcons1 & HK1 & Hlt1).
    destruct (IH _ Hcons1 HK1) as (Hcons2 & HK2 & Hlt2).
    replace (K + Z.of_nat (S k))%Z with (K + 1 + Z.of_nat k)%Z by lia.
    split; [done|]. split; [done|]. intros _ Hany2.
    destruct k as [|k]; [|apply Hlt2; [lia|done]].
    inversion Hrun; subst. rewrite Z.add_0_r. by apply Hlt1.
Qed.

(** The loop passes through every state that its retries reach. *)
Lemma exclude_loop_retries self cs k st g st' g' :
  retries self cs k st g st' g' ->
  forall fuel, (k <= fuel)%nat ->
    exclude_loop fuel self cs st g = exclude_loop (fuel - k) self cs st' g'.
Proof.
  induction 1 as [st g|k st g st1 g1 st2 g2 Hany Hiter Hrun IH]; intros fuel Hfuel.
  - by rewrite Nat.sub_0_r.
  - destruct fuel as [|fuel]; [lia|].
    rewrite exclude_loop_retry by done.
    unfold mbind, M_bind. rewrite Hiter. apply IH. lia.
Qed.

(** A retry after which a flagged walk has used up its budget. *)
Lemma exclude_loop_exhausts self cs fuel st g dx dy dz g' cv' :
  any (ls_violated st) = true ->
  calc_next_steps self (mask_count (ls_violated st)) g = Ok ((dx, dy, dz), g') ->
  check_row self (moved_masked (ls_coords st) cs (ls_violated st) dx dy dz) cs = Ok cv' ->
  exhausted self cv' (mask_incr cv' (ls_counter st)) = true ->
  exclude_loop (S fuel) self cs st g = Raise AssertionError_constraints.
Proof.
  intros Hany Hcalc Hcheck Hex. rewrite exclude_loop_retry by done.
  unfold exclude_iteration, mbind, M_bind, lift.
  rewrite Hcalc, Hcheck, Hex. done.
Qed.

Lemma random_choice_budget a n p g : random_choice a n p g <> Raise OutOfFuel.
Proof. unfold random_choice. by destruct (choice a n p g) as [[?|] ?]. Qed.

Lemma calc_next_steps_budget self n g :
  calc_next_steps self n g <> Raise OutOfFuel.
Proof.
  unfold calc_next_steps. intros Hrun.
  apply bind_Raise in Hrun as [Hrun|(xy & g1 & _ & Hrun)].
  - destruct (dimensions self =? 1)%Z; [by apply random_choice_budget in Hrun|].
    destruct (_ || _); [|done].
    destruct (angles_xy self); [by apply random_choice_budget in Hrun|done].
  - apply bind_Raise in Hrun as [Hrun|(xz & g2 & _ & Hrun)]; [|done].
    destruct (_ || _); [done|].
    destruct (dimensions self =? 3)%Z; [|done].
    destruct (angles_xz self); [by apply random_choice_budget in Hrun|done].
Qed.

Lemma exclude_iteration_budget self cs st g :
  exclude_iteration self cs st g <> Raise OutOfFuel.
Proof.
  unfold exclude_iteration. intros Hrun.
  apply bind_Raise in Hrun as [Hrun|([[dx dy] dz] & g1 & _ & Hrun)];
    [by apply calc_next_steps_budget in Hrun|].
  apply bind_Raise in Hrun as [Hrun|(cv & g2 & _ & Hrun)].
  - unfold lift, check_row, check_constraints in Hrun.
    by destruct (_ && _).
  - by destruct (exhausted _ _ _).
Qed.

(** The budget [exclude_fuel] is never used up. *)
Lemma exclude_loop_fuel self cs fuel : forall K st g,
  consistent self cs st -> counted K st ->
  (any (ls_violated st) = true ->
   (1 <= fuel)%nat /\ (constraint_counter self - K <= Z.of_nat fuel)%Z) ->
  exclude_loop fuel self cs st g <> Raise OutOfFuel.
Proof.
  induction fuel as [|fuel IH]; intros K st g Hcons HK Hfuel.
  - destruct (any (ls_violated st)) eqn:Hany; [destruct Hfuel; [done|lia]|].
    by rewrite exclude_loop_done.
  - destruct (any (ls_violated st)) eqn:Hany; [|by rewrite exclude_loop_done].
    rewrite exclude_loop_retry by done. intros Hrun.
    apply bind_Raise in Hrun as [Hrun|(st1 & g1 & Hiter & Hrun)];
      [by apply exclude_iteration_budget in Hrun|].
    destruct (exclude_iteration_counted _ _ _ _ _ _ _ Hcons HK Hiter)
      as (Hcons1 & HK1 & Hlt1).
    revert Hrun. apply (IH (K + 1)%Z); [done..|].
    intros Hany1. specialize (Hlt1 Hany1). destruct Hfuel as [_ Hfuel]; [done|]. lia.
Qed.
End Counter.

(** ** The loop budget is a device of the embedding only *)

Lemma initial_array_Raise (self : config) (s : start) (e : exn) :
  initial_array self s = Raise e -> e = ValueError_numpy.
Proof.
  unfold initial_array, broadcast_to. destruct s as [v|l]; [done|].
  destruct (length l =? number_of_walks self)%nat; [done|].
  destruct l as [|v [|]]; try done; by intros [= <-].
Qed.

Lemma initial_coordinates_Raise (self : config) (e : exn) :
  initial_coordinates self = Raise e -> e = ValueError_numpy.
Proof.
  unfold initial_coordinates.
  destruct (initial_array self (start_x self)) eqn:Hx;
    destruct (initial_array self (start_y self)) eqn:Hy;
    destruct (initial_array self (start_z self)) eqn:Hz;
    intros [= <-]; eauto using initial_array_Raise.
Qed.

Section Budget.
Context {G : Type} `{!RandomState G}.
Implicit Types (self : config) (t : trajectory) (g : G).

Lemma walk_step_budget self cs t g :
  shaped self t -> (cs < step_number self)%nat ->
  walk_step self cs t g <> Raise OutOfFuel.
Proof.
  intros Hshape Hcs. unfold walk_step. intros Hrun.
  apply bind_Raise in Hrun as [Hrun|([[dx dy] dz] & g1 & Hcalc & Hrun)];
    [by apply calc_next_steps_budget in Hrun|].
  destruct (moved_spec _ _ _ _ _ _ _ _ Hshape Hcs Hcalc) as (Hshape1 & _).
  apply bind_Raise in Hrun as [Hrun|(cv & g2 & [Hcheck ->]%lift_Ok & Hrun)].
  { destruct (shaped_check_row _ _ _ Hshape1 Hcs) as [cv Hcv].
    unfold lift in Hrun. by rewrite Hcv in Hrun. }
  destruct (wall_mode self =? "exclude")%string.
  - revert Hrun. apply (exclude_loop_fuel _ _ _ 0%Z).
    + exact Hcheck.
    + pose proof (consistent_length self cs
                    (LoopState (moved t cs dx dy dz) cv
                       (replicate (number_of_walks self) 0%Z))
                    Hshape1 Hcs Hcheck) as Hlen.
      split; [simpl in *; by rewrite length_replicate|].
      intros w Hw. apply lookup_replicate_2. rewrite <- Hlen.
      by eapply lookup_lt_Some.
    + intros _. unfold exclude_fuel. lia.
  - by destruct (wall_mode self =? "reflect")%string.
Qed.

Lemma for_each_walk_step_budget self k : forall j t g,
  (j + k <= step_number self)%nat -> shaped self t ->
  for_each (walk_step self) (seq j k) t g <> Raise OutOfFuel.
Proof.
  induction k as [|k IH]; intros j t g Hjk Hshape; [done|].
  simpl. intros Hrun.
  apply bind_Raise in Hrun as [Hrun|(t1 & g1 & Hstep & Hrun)].
  - revert Hrun. apply walk_step_budget; [done|lia].
  - apply walk_step_Ok in Hstep as (Hshape1 & _); [|done|lia].
    revert Hrun. apply IH; [lia|done].
Qed.

(** Generation ends with a trajectory or with a Python exception. *)
Lemma generate_walk_coordinates_budget self g :
  generate_walk_coordinates self g <> Raise OutOfFuel.
Proof.
  rewrite generate_walk_coordinates_unfold.
  destruct (initial_coordinates self) as [t0|e] eqn:Hinit.
  - apply for_each_walk_step_budget; [lia|].
    by apply initial_coordinates_shaped.
  - intros [= ->]. by apply initial_coordinates_Raise in Hinit.
Qed.
End Budget.

(** * The claims *)

Section Claims.
Context {G : Type} `{!RandomState G}.
Implicit Types (self args : config) (t : trajectory) (g : G).

Lemma init_Raise args g e :
  generate_walk_coordinates (store_attributes args) g = Raise e ->
  __init__ args g = Raise e.
Proof. intros Hgen. unfold __init__, mbind, M_bind. by rewrite Hgen. Qed.

Lemma generate_first_step self g t0 e :
  (0 < step_number self)%nat -> initial_coordinates self = Ok t0 ->
  walk_step self 0 t0 g = Raise e ->
  generate_walk_coordinates self g = Raise e.
Proof.
  intros Hpos Hinit Hstep. rewrite generate_walk_coordinates_unfold, Hinit.
  destruct (step_number self) as [|k]; [lia|]. simpl.
  unfold mbind, M_bind. by rewrite Hstep.
Qed.

(** C10. With [step_number = 0] the loop body never runs: whatever
    [wall_mode] (and [dimensions]) may be, generation succeeds, draws no
    random number, and each of [x], [y], [z] has exactly one row, which
    holds the start positions. *)
Theorem zero_steps_generation self g rx ry rz :
  step_number self = 0%nat ->
  broadcast_to (number_of_walks self) (start_x self) = Ok rx ->
  broadcast_to (number_of_walks self) (start_y self) = Ok ry ->
  broadcast_to (number_of_walks self) (start_z self) = Ok rz ->
  generate_walk_coordinates self g = Ok (Trajectory [rx] [ry] [rz], g).
Proof.
  intros H0 Hx Hy Hz.
  unfold generate_walk_coordinates, initial_array, mbind, M_bind, lift.
  rewrite Hx, Hy, Hz, H0. done.
Qed.

(** C6 (as amended). For start positions that fit the arrays: with at
    least one step, an invalid configuration makes generation fail in its
    first step, with the dimension [ValueError] for a [dimensions]
    outside 1, 2, 3, and with the wall-mode [ValueError], raised as soon
    as the branch is reached, for a [wall_mode] other than 'exclude' and
    'reflect' once the first sampling has succeeded; with no step nothing
    is checked, and generation returns the start rows whatever
    [dimensions] and [wall_mode] are. *)
Theorem invalid_configuration_first_step self g t0 :
  initial_coordinates self = Ok t0 ->
  ((0 < step_number self)%nat ->
   (dimensions self <> 1%Z -> dimensions self <> 2%Z -> dimensions self <> 3%Z ->
    walk_step self 0 t0 g = Raise (ValueError_dimensions (dimensions self)) /\
    generate_walk_coordinates self g = Raise (ValueError_dimensions (dimensions self)))
   /\
   (wall_mode self <> "exclude" -> wall_mode self <> "reflect" ->
    forall dx dy dz g1,
      calc_next_steps self (number_of_walks self) g = Ok ((dx, dy, dz), g1) ->
      walk_step self 0 t0 g = Raise (ValueError_wall_mode (wall_mode self)) /\
      generate_walk_coordinates self g = Raise (ValueError_wall_mode (wall_mode self))))
  /\
  (step_number self = 0%nat -> generate_walk_coordinates self g = Ok (t0, g)).
Proof.
  intros Hinit. split; [intros Hpos; split|].
  - intros H1 H2 H3.
    assert (walk_step self 0 t0 g = Raise (ValueError_dimensions (dimensions self)))
      as Hstep.
    { unfold walk_step, mbind, M_bind.
      by rewrite calc_next_steps_dimensions. }
    split; [done|]. by eapply generate_first_step.
  - intros Hex Hre dx dy dz g1 Hcalc.
    assert (walk_step self 0 t0 g = Raise (ValueError_wall_mode (wall_mode self)))
      as Hstep.
    { pose proof (initial_coordinates_shaped _ _ Hinit) as Hshape.
      destruct (moved_spec _ _ _ _ _ _ _ _ Hshape Hpos Hcalc) as (Hshape1 & _).
      destruct (shaped_check_row _ _ _ Hshape1 Hpos) as [cv Hcv].
      unfold walk_step, mbind, M_bind, lift. rewrite Hcalc, Hcv.
      apply String.eqb_neq in Hex, Hre. by rewrite Hex, Hre. }
    split; [done|]. by eapply generate_first_step.
  - intros H0. rewrite generate_walk_coordinates_unfold, Hinit, H0. done.
Qed.

Lemma generate_start self g t g' :
  generate_walk_coordinates self g = Ok (t, g') ->
  exists rx ry rz,
    broadcast_to (number_of_walks self) (start_x self) = Ok rx /\
    broadcast_to (number_of_walks self) (start_y self) = Ok ry /\
    broadcast_to (number_of_walks self) (start_z self) = Ok rz /\
    traj_x t !! 0%nat = Some rx /\ traj_y t !! 0%nat = Some ry /\
    traj_z t !! 0%nat = Some rz.
Proof.
  intros (t0 & Hinit & _ & Hagree & _)%generate_walk_coordinates_Ok.
  destruct (Hagree 0%nat) as (Hx & Hy & Hz); [lia|].
  unfold initial_coordinates in Hinit.
  destruct (initial_array self (start_x self)) as [x|] eqn:Hix; [|done].
  destruct (initial_array self (start_y self)) as [y|] eqn:Hiy; [|done].
  destruct (initial_array self (start_z self)) as [z|] eqn:Hiz; [|done].
  injection Hinit as <-. simpl in *.
  apply initial_array_Ok in Hix as (rx & ? & ? & _).
  apply initial_array_Ok in Hiy as (ry & ? & ? & _).
  apply initial_array_Ok in Hiz as (rz & ? & ? & _).
  exists rx, ry, rz. repeat split; congruence.
Qed.

Lemma generate_cells self g t g' s w :
  generate_walk_coordinates self g = Ok (t, g') ->
  (s <= step_number self)%nat -> (w < number_of_walks self)%nat ->
  exists vx vy vz,
    cell (traj_x t) s w = Some vx /\ cell (traj_y t) s w = Some vy /\
    cell (traj_z t) s w = Some vz.
Proof.
  intros (Hx & Hy & Hz)%generate_walk_coordinates_shaped Hs Hw.
  destruct (cell_is_Some self _ s w Hx Hs Hw) as [vx ?].
  destruct (cell_is_Some self _ s w Hy Hs Hw) as [vy ?].
  destruct (cell_is_Some self _ s w Hz Hs Hw) as [vz ?]. eauto 7.
Qed.

(** C1 (as amended). Under [wall_mode = 'exclude'], after a successful
    generation, every coordinate of every row after row 0 lies within
    the limits of its axis, bounds included, for every walk; an axis
    without limits accepts every coordinate.  The check flags a walk
    exactly when one of its coordinates is strictly above the maximum or
    strictly below the minimum of a limited axis. *)
Theorem boundary_invariant self :
  (forall xs ys zs cv w vx vy vz,
      check_constraints self xs ys zs = Ok cv ->
      xs !! w = Some vx -> ys !! w = Some vy -> zs !! w = Some vz ->
      (cv !! w = Some false <->
       within (x_limits self) vx /\ within (y_limits self) vy /\
       within (z_limits self) vz)) /\
  (forall g t g' s w,
      wall_mode self = "exclude" ->
      generate_walk_coordinates self g = Ok (t, g') ->
      (1 <= s <= step_number self)%nat -> (w < number_of_walks self)%nat ->
      exists vx vy vz,
        cell (traj_x t) s w = Some vx /\ cell (traj_y t) s w = Some vy /\
        cell (traj_z t) s w = Some vz /\
        within (x_limits self) vx /\ within (y_limits self) vy /\
        within (z_limits self) vz).
Proof.
  split.
  - intros xs ys zs cv w vx vy vz (_ & _ & _ & Hcv)%check_constraints_Ok Hx Hy Hz.
    rewrite (Hcv w vx vy vz Hx Hy Hz), <- violates_false.
    split; [by intros [= ->] | by intros ->].
  - intros g t g' s w Hex Hgen Hs Hw.
    destruct (generate_cells _ _ _ _ s w Hgen) as (vx & vy & vz & Hx & Hy & Hz);
      [lia|done|].
    exists vx, vy, vz. split; [done|]. split; [done|]. split; [done|].
    apply generate_walk_coordinates_Ok in Hgen as (_ & _ & _ & _ & Hsteps).
    destruct s as [|s]; [lia|].
    destruct (Hsteps s) as [_ Hchecked]; [lia|].
    destruct (Hchecked Hex) as (cv & Hcheck & Hany).
    apply check_constraints_Ok in Hcheck as (_ & _ & _ & Hcv).
    rewrite cell_row in Hx, Hy, Hz.
    specialize (Hcv w vx vy vz Hx Hy Hz).
    apply violates_false. rewrite any_false in Hany. by eapply Hany.
Qed.

Lemma is_step_length self dx dy dz :
  is_step self dx dy dz -> euclidean dx dy dz = Rabs (step_length self).
Proof.
  intros (xy & xz & -> & -> & -> & _). unfold euclidean.
  replace ((cos xy * sin xz * step_length self) ^ 2
           + (sin xy * sin xz * step_length self) ^ 2
           + (cos xz * step_length self) ^ 2)
    with ((((sin xy)² + (cos xy)²) * (sin xz)² + (cos xz)²) * (step_length self)²)
    by (unfold Rsqr; ring).
  rewrite sin2_cos2, Rmult_1_l, sin2_cos2, Rmult_1_l.
  apply sqrt_Rsqr_abs.
Qed.

(** C3. In every successful generation, for every step [s] and every
    walk [w], the Euclidean distance between the positions in rows [s]
    and [s+1] is [step_length] (taken non-negative).  Generation succeeds
    only for [dimensions] in 1, 2, 3, and the statement holds with or
    without limits, so in particular in the unconstrained case. *)
Theorem step_length_invariant self g t g' s w :
  0 <= step_length self ->
  generate_walk_coordinates self g = Ok (t, g') ->
  (s < step_number self)%nat -> (w < number_of_walks self)%nat ->
  exists x0 y0 z0 x1 y1 z1,
    cell (traj_x t) s w = Some x0 /\ cell (traj_y t) s w = Some y0 /\
    cell (traj_z t) s w = Some z0 /\
    cell (traj_x t) (S s) w = Some x1 /\ cell (traj_y t) (S s) w = Some y1 /\
    cell (traj_z t) (S s) w = Some z1 /\
    euclidean (x1 - x0) (y1 - y0) (z1 - z0) = step_length self.
Proof.
  intros Hlen Hgen Hs Hw.
  destruct (generate_cells _ _ _ _ s w Hgen) as (x0 & y0 & z0 & Hx & Hy & Hz);
    [lia|done|].
  apply generate_walk_coordinates_Ok in Hgen as (_ & _ & _ & _ & Hsteps).
  destruct (Hsteps s Hs) as [Hstep _].
  destruct (Hstep w x0 y0 z0 Hx Hy Hz) as (dx & dy & dz & Hd & Hx1 & Hy1 & Hz1).
  exists x0, y0, z0, (x0 + dx), (y0 + dy), (z0 + dz).
  repeat (split; [done|]).
  replace (x0 + dx - x0) with dx by lra. replace (y0 + dy - y0) with dy by lra.
  replace (z0 + dz - z0) with dz by lra.
  rewrite (is_step_length self) by done. by apply Rabs_right, Rle_ge.
Qed.

(** Displacements of a walk confined to a line or to a plane. *)
Lemma is_step_confined self dx dy dz :
  is_step self dx dy dz ->
  (dimensions self = 1%Z ->
   (dx = step_length self \/ dx = - step_length self) /\ dy = 0 /\ dz = 0) /\
  (dimensions self = 2%Z -> dz = 0).
Proof.
  intros (xy & xz & -> & -> & -> & Hxy & Hxz). split.
  - intros Hd. rewrite (Hxz (or_introl Hd)), sin_PI2, cos_PI2.
    destruct (Hxy Hd) as [-> | ->].
    + rewrite cos_0, sin_0. split; [left|]; lra.
    + rewrite cos_PI, sin_PI. split; [right|]; lra.
  - intros Hd. rewrite (Hxz (or_intror Hd)), cos_PI2. lra.
Qed.

Lemma confined_cells self g t g' w :
  generate_walk_coordinates self g = Ok (t, g') ->
  (w < number_of_walks self)%nat ->
  forall s, (s <= step_number self)%nat ->
    (dimensions self = 1%Z ->
     cell (traj_y t) s w = cell (traj_y t) 0 w /\
     cell (traj_z t) s w = cell (traj_z t) 0 w) /\
    (dimensions self = 2%Z -> cell (traj_z t) s w = cell (traj_z t) 0 w).
Proof.
  intros Hgen Hw. induction s as [|s IH]; intros Hs; [done|].
  destruct (generate_cells _ _ _ _ s w Hgen) as (x0 & y0 & z0 & Hx & Hy & Hz);
    [lia|done|].
  pose proof Hgen as (_ & _ & _ & _ & Hsteps)%generate_walk_coordinates_Ok.
  destruct (Hsteps s) as [Hstep _]; [lia|].
  destruct (Hstep w x0 y0 z0 Hx Hy Hz) as (dx & dy & dz & Hd & Hx1 & Hy1 & Hz1).
  apply is_step_confined in Hd as [H1 H2].
  destruct IH as [IH1 IH2]; [lia|]. split.
  - intros Hd. destruct (H1 Hd) as (_ & -> & ->), (IH1 Hd) as [<- <-].
    rewrite Hy1, Hz1, Hy, Hz, !Rplus_0_r. done.
  - intros Hd. rewrite <- (IH2 Hd), Hz1, Hz, (H2 Hd), Rplus_0_r. done.
Qed.

(** In exact arithmetic, where [sin 0], [sin PI] and [cos (PI / 2)] are
    0: in every successful generation with [dimensions = 1] the y and z
    coordinates of every walk equal their start values in every row and
    each step moves x by [step_length] forwards or backwards; with
    [dimensions = 2] the z coordinate equals its start value.  In
    float64 [np.sin(np.pi)] and [np.cos(np.pi/2)] are of the order of
    1e-16, so the program keeps these coordinates up to that rounding
    only, and this lemma settles nothing about its exact values. *)
Lemma dimension_confinement self g t g' s w :
  generate_walk_coordinates self g = Ok (t, g') ->
  (s <= step_number self)%nat -> (w < number_of_walks self)%nat ->
  exists ry rz,
    broadcast_to (number_of_walks self) (start_y self) = Ok ry /\
    broadcast_to (number_of_walks self) (start_z self) = Ok rz /\
    (dimensions self = 1%Z ->
     cell (traj_y t) s w = ry !! w /\ cell (traj_z t) s w = rz !! w /\
     ((s < step_number self)%nat ->
      exists vx, cell (traj_x t) s w = Some vx /\
        (cell (traj_x t) (S s) w = Some (vx + step_length self) \/
         cell (traj_x t) (S s) w = Some (vx - step_length self)))) /\
    (dimensions self = 2%Z -> cell (traj_z t) s w = rz !! w).
Proof.
  intros Hgen Hs Hw.
  destruct (generate_start _ _ _ _ Hgen) as (rx & ry & rz & _ & Hry & Hrz & _ & Hy0 & Hz0).
  exists ry, rz. split; [done|]. split; [done|].
  destruct (confined_cells _ _ _ _ w Hgen Hw s Hs) as [H1 H2].
  assert (cell (traj_y t) 0 w = ry !! w) as Hcy by (unfold cell; by rewrite Hy0).
  assert (cell (traj_z t) 0 w = rz !! w) as Hcz by (unfold cell; by rewrite Hz0).
  split.
  - intros Hd. destruct (H1 Hd) as [-> ->]. split; [done|]. split; [done|].
    intros Hlt.
    destruct (generate_cells _ _ _ _ s w Hgen) as (x0 & y0 & z0 & Hx & Hy & Hz);
      [lia|done|].
    apply generate_walk_coordinates_Ok in Hgen as (_ & _ & _ & _ & Hsteps).
    destruct (Hsteps s Hlt) as [Hstep _].
    destruct (Hstep w x0 y0 z0 Hx Hy Hz) as (dx & dy & dz & Hstp & Hx1 & _).
    apply is_step_confined in Hstp as [Hc _].
    exists x0. split; [done|]. rewrite Hx1.
    destruct (Hc Hd) as ([-> | ->] & _); [by left | by right].
  - intros Hd. by rewrite (H2 Hd).
Qed.

Lemma check_constraints_without_limits self xs ys zs :
  match check_constraints self xs ys zs with
  | Ok _ => exists cv, check_constraints (without_limits self) xs ys zs = Ok cv
  | Raise e => check_constraints (without_limits self) xs ys zs = Raise e
  end.
Proof. unfold check_constraints. destruct (_ && _); eauto. Qed.

Lemma walk_step_reflect self cs t g :
  wall_mode self = "reflect" ->
  walk_step self cs t g = walk_step (without_limits self) cs t g.
Proof.
  intros Hmode. unfold walk_step, mbind, M_bind, lift.
  change (calc_next_steps (without_limits self)) with (calc_next_steps self).
  change (number_of_walks (without_limits self)) with (number_of_walks self).
  change (wall_mode (without_limits self)) with (wall_mode self).
  destruct (calc_next_steps self _ g) as [[[[dx dy] dz] g1]|]; [|done].
  unfold check_row.
  pose proof (check_constraints_without_limits self
                (row (traj_x (moved t cs dx dy dz)) (S cs))
                (row (traj_y (moved t cs dx dy dz)) (S cs))
                (row (traj_z (moved t cs dx dy dz)) (S cs))) as Hcheck.
  destruct (check_constraints self _ _ _) as [cv|e].
  - destruct Hcheck as [cv' ->]. rewrite Hmode. done.
  - by rewrite Hcheck.
Qed.

Lemma for_each_ext {A} (f f' : nat -> A -> M (G:=G) A) l :
  (forall i a g, f i a g = f' i a g) ->
  forall a g, for_each f l a g = for_each f' l a g.
Proof.
  intros Hff'. induction l as [|i l IH]; intros a g; simpl; [done|].
  unfold mbind, M_bind. rewrite Hff'. by destruct (f' i a g) as [[]|].
Qed.

(** C4. With [wall_mode = 'reflect'] the constraint branch does
    nothing: a step stores the first positions it draws, whether or not
    they violate the limits, and the whole generation is the one of the
    same configuration without any limit. *)
Theorem reflect_is_noop self :
  wall_mode self = "reflect" ->
  (forall cs t g,
      shaped self t -> (cs < step_number self)%nat ->
      walk_step self cs t g
      = ('(dx, dy, dz) ← calc_next_steps self (number_of_walks self);
         mret (moved t cs dx dy dz)) g) /\
  (forall g,
      generate_walk_coordinates self g
      = generate_walk_coordinates (without_limits self) g).
Proof.
  intros Hmode. split.
  - intros cs t g Hshape Hcs. unfold walk_step, mbind, M_bind, lift.
    destruct (calc_next_steps self _ g) as [[[[dx dy] dz] g1]|] eqn:Hcalc; [|done].
    destruct (moved_spec _ _ _ _ _ _ _ _ Hshape Hcs Hcalc) as (Hshape1 & _).
    destruct (shaped_check_row _ _ _ Hshape1 Hcs) as [cv ->].
    by rewrite Hmode.
  - intros g. rewrite !generate_walk_coordinates_unfold.
    change (initial_coordinates (without_limits self)) with (initial_coordinates self).
    change (step_number (without_limits self)) with (step_number self).
    destruct (initial_coordinates self) as [t0|]; [|done].
    apply for_each_ext. intros i a g0. by apply walk_step_reflect.
Qed.

(** C8. In the rejection loop of a step, a retry, and therefore the
    whole loop, changes only the coordinates in row [curr_step+1] of the
    walks flagged when it starts: every other row, and in row
    [curr_step+1] every walk that is not flagged, keeps its
    coordinates. *)
Theorem rejection_loop_frame self cs st g :
  (forall st1 g1,
      exclude_iteration self cs st g = Ok (st1, g1) ->
      same_rows_except cs (ls_coords st) (ls_coords st1) /\
      forall w, ls_violated st !! w = Some false ->
                same_walk (S cs) w (ls_coords st) (ls_coords st1)) /\
  (forall fuel t' g',
      consistent self cs st ->
      exclude_loop fuel self cs st g = Ok (t', g') ->
      same_rows_except cs (ls_coords st) t' /\
      forall w, ls_violated st !! w = Some false ->
                same_walk (S cs) w (ls_coords st) t').
Proof.
  split.
  - intros st1 g1. apply exclude_iteration_frame.
  - intros fuel t' g' Hcons Hrun. by eapply exclude_loop_frame_aux.
Qed.

Lemma for_each_walk_step_Raise self s t0 g0 t g e :
  for_each (walk_step self) (seq 0 s) t0 g0 = Ok (t, g) ->
  (s < step_number self)%nat ->
  walk_step self s t g = Raise e ->
  for_each (walk_step self) (seq 0 (step_number self)) t0 g0 = Raise e.
Proof.
  intros Hprefix Hs Hstep.
  replace (step_number self) with (s + S (step_number self - S s))%nat by lia.
  rewrite seq_app, for_each_app. unfold mbind at 1, M_bind at 1.
  rewrite Hprefix. simpl. unfold mbind, M_bind. by rewrite Hstep.
Qed.

(** C2. Under [wall_mode = 'exclude'] the counter of a walk that is
    still flagged after retry number [k+1] of a step is [k+1], the
    number of its retries; when that number has reached
    [constraint_counter] the assertion fails, generation raises it, and
    so does [__init__]: no object, hence no trajectory, is returned. *)
Theorem constraint_exhausted_fatal args g0 s k cv counter w c :
  wall_mode args = "exclude" ->
  retry_outcome (store_attributes args) g0 s k cv counter ->
  cv !! w = Some true -> counter !! w = Some c ->
  c = Z.of_nat (S k) /\
  ((c >= constraint_counter args)%Z ->
   generate_walk_coordinates (store_attributes args) g0
   = Raise AssertionError_constraints /\
   __init__ args g0 = Raise AssertionError_constraints).
Proof.
  intros Hmode (t0 & t & g & dx & dy & dz & g1 & cv0 & st & gk & ex & ey & ez & g2
                & Hinit & Hprefix & Hs & Hcalc & Hcheck0 & Hretries & Hany
                & Hcalc' & Hcheck & ->) Hw Hc.
  set (self := store_attributes args) in *.
  set (st0 := LoopState (moved t s dx dy dz) cv0
                (replicate (number_of_walks self) 0%Z)) in *.
  assert (shaped self t) as Hshape.
  { apply for_each_walk_step_Ok in Hprefix as (? & _); [done|lia|].
    by apply initial_coordinates_shaped. }
  destruct (moved_spec _ _ _ _ _ _ _ _ Hshape Hs Hcalc) as (Hshape0 & _).
  assert (consistent self s st0) as Hcons0 by exact Hcheck0.
  assert (counted 0 st0) as Hcnt0.
  { pose proof (consistent_length self s st0 Hshape0 Hs Hcons0) as Hlen.
    split; [simpl in *; by rewrite length_replicate|].
    intros v Hv. apply lookup_replicate_2. rewrite <- Hlen.
    by eapply lookup_lt_Some. }
  destruct (retries_counted _ _ _ _ _ _ _ 0%Z Hretries Hcons0 Hcnt0)
    as (Hcons & Hcnt & Hlt).
  destruct (masked_counted _ _ _ _ _ _ _ _ Hcons Hcnt Hcheck) as [_ Hval].
  rewrite (Hval w Hw) in Hc. injection Hc as <-.
  split; [lia|]. intros Hge.
  assert (generate_walk_coordinates self g0 = Raise AssertionError_constraints)
    as Hgen; [|split; [done | by apply init_Raise]].
  rewrite generate_walk_coordinates_unfold, Hinit.
  eapply for_each_walk_step_Raise; [done..|].
  unfold walk_step, mbind, M_bind, lift. rewrite Hcalc, Hcheck0.
  change (wall_mode self) with (wall_mode args). rewrite Hmode. simpl.
  fold st0.
  assert (k < exclude_fuel self)%nat as Hfuel.
  { unfold exclude_fuel. destruct k as [|k]; [lia|].
    specialize (Hlt ltac:(lia) Hany). lia. }
  rewrite (exclude_loop_retries _ _ _ _ _ _ _ Hretries) by lia.
  destruct (exclude_fuel self - k)%nat as [|fuel] eqn:Hrest; [lia|].
  eapply exclude_loop_exhausts; [done..|].
  apply exhausted_true. exists w, (0 + Z.of_nat k + 1)%Z.
  split; [done|]. split; [by apply Hval|].
  change (constraint_counter self) with (constraint_counter args). lia.
Qed.

Lemma init_Ok args g rw g' :
  __init__ args g = Ok (rw, g') ->
  exists t,
    generate_walk_coordinates (store_attributes args) g = Ok (t, g') /\
    rw_self rw = store_attributes args /\ rw_coords rw = t /\
    end2end_real rw
    = sqrt <$> zip_with Rplus
                 (zip_with Rplus (squared_displacement (traj_x t))
                    (squared_displacement (traj_y t)))
                 (squared_displacement (traj_z t)) /\
    end2end rw
    = sqrt (np_mean (squared_displacement (traj_x t))
            + np_mean (squared_displacement (traj_y t))
            + np_mean (squared_displacement (traj_z t))).
Proof.
  unfold __init__. intros (t & g1 & Hgen & Hret)%bind_Ok.
  apply ret_Ok in Hret. injection Hret as -> ->. by exists t.
Qed.

(** First and last row of a well-shaped array. *)
Lemma squared_displacement_rows self a :
  well_shaped self a ->
  exists first last,
    a !! 0%nat = Some first /\ a !! step_number self = Some last /\
    length first = number_of_walks self /\ length last = number_of_walks self /\
    squared_displacement a = zip_with (fun u v => (u - v) ^ 2) first last.
Proof.
  intros Ha.
  destruct (well_shaped_row self a 0 Ha) as [H0 Hl0]; [lia|].
  destruct (well_shaped_row self a (step_number self) Ha) as [HN HlN]; [lia|].
  exists (row a 0), (row a (step_number self)).
  repeat (split; [done|]). unfold squared_displacement.
  destruct Ha as [-> _]. by rewrite Nat.sub_succ, Nat.sub_0_r.
Qed.
End Claims.

Lemma np_mean_squared_displacement (first last : list R) :
  length first = length last ->
  np_mean (zip_with (fun u v => (u - v) ^ 2) first last)
  = mean_squared_displacement first last.
Proof.
  intros Hlen. unfold np_mean, mean_squared_displacement.
  rewrite length_zip_with, <- Hlen, Nat.min_id. done.
Qed.

Lemma np_sum_scale (c : R) (p : list R) :
  np_sum ((fun v => v / c) <$> p) = np_sum p / c.
Proof.
  induction p as [|v p IH]; [unfold np_sum; simpl; lra|].
  rewrite fmap_cons. unfold np_sum in *. cbn [foldr]. rewrite IH. lra.
Qed.

Lemma np_sum_positive (p : list R) :
  p <> [] -> Forall (fun v => 0 < v) p -> 0 < np_sum p.
Proof.
  intros Hne Hpos. destruct p as [|v p]; [done|].
  apply Forall_cons in Hpos as [Hv Hp]. unfold np_sum. simpl.
  assert (0 <= foldr Rplus 0 p); [|lra].
  clear Hne Hv. induction Hp as [|u p Hu Hp IH]; simpl; lra.
Qed.

Lemma normalize_sum (p : list R) :
  p <> [] -> Forall (fun v => 0 < v) p ->
  length (normalize p) = length p /\ np_sum (normalize p) = 1.
Proof.
  intros Hne Hpos. pose proof (np_sum_positive p Hne Hpos).
  unfold normalize. rewrite length_fmap, np_sum_scale.
  split; [done|]. field. lra.
Qed.

(** * The program on examples *)

Lemma bounce_generation :
  generate_walk_coordinates bounce [1; 0; 0]%nat = Ok (bounce_walk, []).
Proof.
  unfold generate_walk_coordinates, walk_step, bounce, bounce_walk. run.
  same_values.
Qed.

Lemma bounce_first_attempt_consistent : consistent bounce 0 bounce_first_attempt.
Proof. unfold consistent, bounce, bounce_first_attempt. run. done. Qed.

Lemma bounce_loop :
  exclude_loop 3 bounce 0 bounce_first_attempt [0%nat] = Ok (bounce_walk, []).
Proof. unfold bounce, bounce_first_attempt, bounce_walk. run. same_values. Qed.

Lemma outside_generation :
  generate_walk_coordinates outside [1%nat]
  = Ok (Trajectory [[2]; [1]] [[0]; [0]] [[0]; [0]], []).
Proof. unfold generate_walk_coordinates, walk_step, outside. run. same_values. Qed.

Lemma mirror_generation :
  generate_walk_coordinates mirror [0%nat]
  = Ok (Trajectory [[0]; [1]] [[0]; [0]] [[0]; [0]], []).
Proof. unfold generate_walk_coordinates, walk_step, mirror. run. same_values. Qed.

Lemma sqrt_eq (e v : R) : 0 <= v -> e = v * v -> sqrt e = v.
Proof. intros Hv ->. by apply sqrt_square. Qed.

Lemma pair_construction :
  exists rw,
    __init__ pair [0; 0; 1; 0]%nat = Ok (rw, []) /\
    end2end rw = sqrt 2 /\ np_mean (end2end_real rw) = 1.
Proof.
  eexists. split; [|split].
  - unfold __init__, generate_walk_coordinates, walk_step, pair, store_attributes,
      squared_displacement. run. done.
  - cbn [end2end]. unfold np_mean, np_sum. cbn [foldr length INR].
    f_equal. lra.
  - cbn [end2end_real]. unfold np_mean, np_sum. cbn [foldr length INR].
    rewrite (sqrt_eq _ 0); [|lra|lra]. rewrite (sqrt_eq _ 2); [|lra|lra]. lra.
Qed.

Lemma sqrt_2_neq_1 : sqrt 2 <> 1.
Proof.
  intros Heq. pose proof (sqrt_sqrt 2 ltac:(lra)) as Hsq.
  rewrite Heq in Hsq. lra.
Qed.

Section Distances.
Context {G : Type} `{!RandomState G}.

Lemma end2end_spec (args : config) (g : G) rw g' :
  __init__ args g = Ok (rw, g') ->
  exists x0 xN y0 yN z0 zN : list R,
    traj_x (rw_coords rw) !! 0%nat = Some x0 /\
    traj_x (rw_coords rw) !! step_number args = Some xN /\
    traj_y (rw_coords rw) !! 0%nat = Some y0 /\
    traj_y (rw_coords rw) !! step_number args = Some yN /\
    traj_z (rw_coords rw) !! 0%nat = Some z0 /\
    traj_z (rw_coords rw) !! step_number args = Some zN /\
    length (end2end_real rw) = number_of_walks args /\
    (forall w vx0 vxN vy0 vyN vz0 vzN,
        x0 !! w = Some vx0 -> xN !! w = Some vxN ->
        y0 !! w = Some vy0 -> yN !! w = Some vyN ->
        z0 !! w = Some vz0 -> zN !! w = Some vzN ->
        end2end_real rw !! w
        = Some (euclidean (vx0 - vxN) (vy0 - vyN) (vz0 - vzN))) /\
    end2end rw
    = sqrt (mean_squared_displacement x0 xN + mean_squared_displacement y0 yN
            + mean_squared_displacement z0 zN).
Proof.
  intros (t & Hgen & _ & -> & Hreal & Hmean)%init_Ok.
  apply generate_walk_coordinates_shaped in Hgen as (Hx & Hy & Hz).
  apply squared_displacement_rows in Hx as (x0 & xN & Hx0 & HxN & Hlx0 & HlxN & Hdx).
  apply squared_displacement_rows in Hy as (y0 & yN & Hy0 & HyN & Hly0 & HlyN & Hdy).
  apply squared_displacement_rows in Hz as (z0 & zN & Hz0 & HzN & Hlz0 & HlzN & Hdz).
  change (step_number (store_attributes args)) with (step_number args) in *.
  change (number_of_walks (store_attributes args)) with (number_of_walks args) in *.
  exists x0, xN, y0, yN, z0, zN. repeat (split; [done|]).
  rewrite Hreal, Hmean, Hdx, Hdy, Hdz. split; [|split].
  - rewrite length_fmap, !length_zip_with. lia.
  - intros w vx0 vxN vy0 vyN vz0 vzN Hvx0 HvxN Hvy0 HvyN Hvz0 HvzN.
    rewrite list_lookup_fmap, !lookup_zip_with.
    rewrite Hvx0, HvxN, Hvy0, HvyN, Hvz0, HvzN. done.
  - rewrite !np_mean_squared_displacement by congruence. done.
Qed.

(** C9 (as amended). After construction, a probability vector given as
    a non-empty sequence of positive values is stored divided by its
    sum, once, and the stored vector sums to 1; a probability vector
    that is [None] is stored as [None]. *)
Theorem probabilities_normalized (args : config) (g : G) rw g' :
  __init__ args g = Ok (rw, g') ->
  (forall p, angles_xy_p args = Some p -> p <> [] -> Forall (fun v => 0 < v) p ->
     exists q, angles_xy_p (rw_self rw) = Some q /\ length q = length p /\
               np_sum q = 1) /\
  (forall p, angles_xz_p args = Some p -> p <> [] -> Forall (fun v => 0 < v) p ->
     exists q, angles_xz_p (rw_self rw) = Some q /\ length q = length p /\
               np_sum q = 1) /\
  (angles_xy_p args = None -> angles_xy_p (rw_self rw) = None) /\
  (angles_xz_p args = None -> angles_xz_p (rw_self rw) = None).
Proof.
  intros (t & _ & -> & _)%init_Ok. simpl. repeat split.
  - intros p -> Hne Hpos. exists (normalize p). split; [done|].
    by apply normalize_sum.
  - intros p -> Hne Hpos. exists (normalize p). split; [done|].
    by apply normalize_sum.
  - by intros ->.
  - by intros ->.
Qed.
End Distances.

(** C5. After construction, [end2end_real] has one entry per walk, the
    Euclidean distance between the walk's positions in row 0 and in the
    last row, and [end2end] is the square root of the sum over the three
    axes of the mean over the walks of the squared displacement along the
    axis.  The two aggregations differ: there is a population of walks
    with different displacements for which [end2end] is not the mean of
    [end2end_real]. *)
Theorem end2end_aggregations :
  (forall (G : Type) (RS : RandomState G) (args : config) (g : G) rw g',
      __init__ args g = Ok (rw, g') ->
      exists x0 xN y0 yN z0 zN : list R,
        traj_x (rw_coords rw) !! 0%nat = Some x0 /\
        traj_x (rw_coords rw) !! step_number args = Some xN /\
        traj_y (rw_coords rw) !! 0%nat = Some y0 /\
        traj_y (rw_coords rw) !! step_number args = Some yN /\
        traj_z (rw_coords rw) !! 0%nat = Some z0 /\
        traj_z (rw_coords rw) !! step_number args = Some zN /\
        length (end2end_real rw) = number_of_walks args /\
        (forall w vx0 vxN vy0 vyN vz0 vzN,
            x0 !! w = Some vx0 -> xN !! w = Some vxN ->
            y0 !! w = Some vy0 -> yN !! w = Some vyN ->
            z0 !! w = Some vz0 -> zN !! w = Some vzN ->
            end2end_real rw !! w
            = Some (euclidean (vx0 - vxN) (vy0 - vyN) (vz0 - vzN))) /\
        end2end rw
        = sqrt (mean_squared_displacement x0 xN + mean_squared_displacement y0 yN
                + mean_squared_displacement z0 zN)) /\
  (exists (args : config) (g : list nat) rw g',
      __init__ args g = Ok (rw, g') /\ end2end rw <> np_mean (end2end_real rw)).
Proof.
  split.
  - intros G RS args g rw g'. apply end2end_spec.
  - destruct pair_construction as (rw & Hinit & Hend & Hmean).
    exists pair, [0; 0; 1; 0]%nat, rw, []. split; [done|].
    rewrite Hend, Hmean. apply sqrt_2_neq_1.
Qed.

(** * The claims on the examples *)

Lemma bounce_check :
  check_constraints bounce [-1; 1] [0; 0] [0; 0] = Ok [true; false].
Proof. unfold bounce. run. done. Qed.

Lemma bounce_retry :
  exclude_iteration bounce 0 bounce_first_attempt [0%nat]
  = Ok (LoopState bounce_walk [false; false] [0%Z; 0%Z], []).
Proof. unfold bounce, bounce_first_attempt, bounce_walk. run. same_values. Qed.

Lemma boundary_invariant_witness :
  (check_constraints bounce [-1; 1] [0; 0] [0; 0] = Ok [true; false] /\
   ([true; false] !! 1%nat = Some false <->
    within (x_limits bounce) 1 /\ within (y_limits bounce) 0 /\
    within (z_limits bounce) 0)) /\
  (wall_mode bounce = "exclude" /\
   generate_walk_coordinates bounce [1; 0; 0]%nat = Ok (bounce_walk, []) /\
   (1 <= 1 <= step_number bounce)%nat /\ (0 < number_of_walks bounce)%nat /\
   exists vx vy vz,
     cell (traj_x bounce_walk) 1 0 = Some vx /\
     cell (traj_y bounce_walk) 1 0 = Some vy /\
     cell (traj_z bounce_walk) 1 0 = Some vz /\
     within (x_limits bounce) vx /\ within (y_limits bounce) vy /\
     within (z_limits bounce) vz).
Proof.
  split.
  - split; [exact bounce_check|].
    exact (proj1 (boundary_invariant bounce) [-1; 1] [0; 0] [0; 0] [true; false]
             1%nat 1 0 0 bounce_check eq_refl eq_refl eq_refl).
  - assert (H1 : wall_mode bounce = "exclude") by reflexivity.
    assert (H3 : (1 <= 1 <= step_number bounce)%nat) by (simpl; lia).
    assert (H4 : (0 < number_of_walks bounce)%nat) by (simpl; lia).
    split; [exact H1|]. split; [exact bounce_generation|].
    split; [exact H3|]. split; [exact H4|].
    exact (proj2 (boundary_invariant bounce) [1; 0; 0]%nat bounce_walk [] 1%nat 0%nat
             H1 bounce_generation H3 H4).
Defined.

Lemma boundary_row0_counterexample :
  wall_mode outside = "exclude" /\ x_limits outside = Some (0, 1) /\
  exists t g',
    generate_walk_coordinates outside [1%nat] = Ok (t, g') /\
    cell (traj_x t) 0 0 = Some 2 /\ ~ within (x_limits outside) 2.
Proof.
  split; [done|]. split; [done|].
  eexists _, _. split; [exact outside_generation|]. split; [done|].
  simpl. lra.
Qed.

Lemma step_length_invariant_witness :
  0 <= step_length bounce /\
  generate_walk_coordinates bounce [1; 0; 0]%nat = Ok (bounce_walk, []) /\
  (0 < step_number bounce)%nat /\ (0 < number_of_walks bounce)%nat /\
  exists x0 y0 z0 x1 y1 z1,
    cell (traj_x bounce_walk) 0 0 = Some x0 /\
    cell (traj_y bounce_walk) 0 0 = Some y0 /\
    cell (traj_z bounce_walk) 0 0 = Some z0 /\
    cell (traj_x bounce_walk) 1 0 = Some x1 /\
    cell (traj_y bounce_walk) 1 0 = Some y1 /\
    cell (traj_z bounce_walk) 1 0 = Some z1 /\
    euclidean (x1 - x0) (y1 - y0) (z1 - z0) = step_length bounce.
Proof.
  assert (H1 : 0 <= step_length bounce) by (simpl; lra).
  assert (H3 : (0 < step_number bounce)%nat) by (simpl; lia).
  assert (H4 : (0 < number_of_walks bounce)%nat) by (simpl; lia).
  split; [exact H1|]. split; [exact bounce_generation|].
  split; [exact H3|]. split; [exact H4|].
  exact (step_length_invariant bounce [1; 0; 0]%nat bounce_walk [] 0%nat 0%nat
           H1 bounce_generation H3 H4).
Defined.

Lemma rejection_loop_frame_witness :
  (exclude_iteration bounce 0 bounce_first_attempt [0%nat]
   = Ok (LoopState bounce_walk [false; false] [0%Z; 0%Z], []) /\
   same_rows_except 0 (ls_coords bounce_first_attempt) bounce_walk /\
   forall w, ls_violated bounce_first_attempt !! w = Some false ->
             same_walk 1 w (ls_coords bounce_first_attempt) bounce_walk) /\
  (consistent bounce 0 bounce_first_attempt /\
   exclude_loop 3 bounce 0 bounce_first_attempt [0%nat] = Ok (bounce_walk, []) /\
   same_rows_except 0 (ls_coords bounce_first_attempt) bounce_walk /\
   forall w, ls_violated bounce_first_attempt !! w = Some false ->
             same_walk 1 w (ls_coords bounce_first_attempt) bounce_walk).
Proof.
  split.
  - split; [exact bounce_retry|].
    exact (proj1 (rejection_loop_frame bounce 0 bounce_first_attempt [0%nat])
             _ _ bounce_retry).
  - split; [exact bounce_first_attempt_consistent|]. split; [exact bounce_loop|].
    exact (proj2 (rejection_loop_frame bounce 0 bounce_first_attempt [0%nat])
             3%nat bounce_walk [] bounce_first_attempt_consistent bounce_loop).
Defined.

Lemma zero_steps_generation_witness :
  step_number cfg_unchecked = 0%nat /\
  broadcast_to (number_of_walks cfg_unchecked) (start_x cfg_unchecked) = Ok [1; 2] /\
  broadcast_to (number_of_walks cfg_unchecked) (start_y cfg_unchecked) = Ok [0; 0] /\
  broadcast_to (number_of_walks cfg_unchecked) (start_z cfg_unchecked) = Ok [0; 0] /\
  generate_walk_coordinates cfg_unchecked ([] : list nat)
  = Ok (Trajectory [[1; 2]] [[0; 0]] [[0; 0]], []).
Proof.
  split; [reflexivity|]. split; [reflexivity|]. split; [reflexivity|].
  split; [reflexivity|].
  exact (zero_steps_generation cfg_unchecked [] [1; 2] [0; 0] [0; 0]
           eq_refl eq_refl eq_refl eq_refl).
Defined.

Lemma tight_retry_outcome :
  retry_outcome (store_attributes tight) [0; 0; 0]%nat 0 1 [true] [2%Z].
Proof.
  unfold retry_outcome, tight, store_attributes.
  eexists _, _, _, _, _, _, _, _, _, _, _, _, _, _.
  split; [reflexivity|]. split; [reflexivity|]. split; [simpl; lia|].
  split; [run; reflexivity|]. split; [run; reflexivity|].
  split; [eapply retries_S; [|run; reflexivity|apply retries_O]; reflexivity|].
  split; [reflexivity|]. split; [run; reflexivity|].
  split; [run; reflexivity|]. reflexivity.
Qed.

Lemma constraint_exhausted_fatal_witness :
  wall_mode tight = "exclude" /\
  retry_outcome (store_attributes tight) [0; 0; 0]%nat 0 1 [true] [2%Z] /\
  [true] !! 0%nat = Some true /\ [2%Z] !! 0%nat = Some 2%Z /\
  (2 >= constraint_counter tight)%Z /\
  2%Z = Z.of_nat 2 /\
  generate_walk_coordinates (store_attributes tight) [0; 0; 0]%nat
  = Raise AssertionError_constraints /\
  __init__ tight [0; 0; 0]%nat = Raise AssertionError_constraints.
Proof.
  assert (H1 : wall_mode tight = "exclude") by reflexivity.
  assert (H5 : (2 >= constraint_counter tight)%Z) by (simpl; lia).
  split; [exact H1|]. split; [exact tight_retry_outcome|].
  split; [reflexivity|]. split; [reflexivity|]. split; [exact H5|].
  destruct (constraint_exhausted_fatal tight [0; 0; 0]%nat 0 1 [true] [2%Z] 0%nat 2%Z
              H1 tight_retry_outcome eq_refl eq_refl) as [Hc Hfatal].
  split; [exact Hc|]. exact (Hfatal H5).
Defined.

Lemma mirror_start_shaped :
  shaped mirror (Trajectory [[0]; [0]] [[0]; [0]] [[0]; [0]]).
Proof. repeat split; simpl; repeat constructor. Qed.

Lemma reflect_is_noop_witness :
  wall_mode mirror = "reflect" /\
  shaped mirror (Trajectory [[0]; [0]] [[0]; [0]] [[0]; [0]]) /\
  (0 < step_number mirror)%nat /\
  walk_step mirror 0 (Trajectory [[0]; [0]] [[0]; [0]] [[0]; [0]]) [0%nat]
  = ('(dx, dy, dz) ← calc_next_steps mirror (number_of_walks mirror);
     mret (moved (Trajectory [[0]; [0]] [[0]; [0]] [[0]; [0]]) 0 dx dy dz)) [0%nat] /\
  generate_walk_coordinates mirror [0%nat]
  = generate_walk_coordinates (without_limits mirror) [0%nat].
Proof.
  assert (H1 : wall_mode mirror = "reflect") by reflexivity.
  assert (H3 : (0 < step_number mirror)%nat) by (simpl; lia).
  split; [exact H1|]. split; [exact mirror_start_shaped|]. split; [exact H3|].
  split.
  - exact (proj1 (reflect_is_noop mirror H1) 0%nat _ [0%nat] mirror_start_shaped H3).
  - exact (proj2 (reflect_is_noop mirror H1) [0%nat]).
Defined.

(** Under 'reflect' a coordinate outside the limits stays in the result. *)
Lemma reflect_leaves_violation :
  exists t g',
    generate_walk_coordinates mirror [0%nat] = Ok (t, g') /\
    cell (traj_x t) 1 0 = Some 1 /\ ~ within (x_limits mirror) 1.
Proof.
  eexists _, _. split; [exact mirror_generation|]. split; [done|]. simpl. lra.
Qed.

Lemma end2end_aggregations_witness :
  exists rw,
    __init__ pair [0; 0; 1; 0]%nat = Ok (rw, []) /\
    exists x0 xN y0 yN z0 zN : list R,
      traj_x (rw_coords rw) !! 0%nat = Some x0 /\
      traj_x (rw_coords rw) !! step_number pair = Some xN /\
      traj_y (rw_coords rw) !! 0%nat = Some y0 /\
      traj_y (rw_coords rw) !! step_number pair = Some yN /\
      traj_z (rw_coords rw) !! 0%nat = Some z0 /\
      traj_z (rw_coords rw) !! step_number pair = Some zN /\
      length (end2end_real rw) = number_of_walks pair /\
      (forall w vx0 vxN vy0 vyN vz0 vzN,
          x0 !! w = Some vx0 -> xN !! w = Some vxN ->
          y0 !! w = Some vy0 -> yN !! w = Some vyN ->
          z0 !! w = Some vz0 -> zN !! w = Some vzN ->
          end2end_real rw !! w
          = Some (euclidean (vx0 - vxN) (vy0 - vyN) (vz0 - vzN))) /\
      end2end rw
      = sqrt (mean_squared_displacement x0 xN + mean_squared_displacement y0 yN
              + mean_squared_displacement z0 zN).
Proof.
  destruct pair_construction as (rw & Hinit & _).
  exists rw. split; [exact Hinit|].
  exact (proj1 end2end_aggregations (list nat) tape_random pair [0; 0; 1; 0]%nat
           rw [] Hinit).
Defined.

Lemma seven_dimensions_start :
  initial_coordinates seven_dimensions
  = Ok (Trajectory [[0]; [0]] [[0]; [0]] [[0]; [0]]).
Proof. reflexivity. Qed.

Lemma bouncing_walls_start :
  initial_coordinates bouncing_walls
  = Ok (Trajectory [[0]; [0]] [[0]; [0]] [[0]; [0]]).
Proof. reflexivity. Qed.

Lemma bouncing_walls_sample :
  calc_next_steps bouncing_walls (number_of_walks bouncing_walls) [0%nat]
  = Ok (([1], [0], [0]), []).
Proof. unfold bouncing_walls. run. same_values. Qed.

Lemma cfg_unchecked_start :
  initial_coordinates cfg_unchecked
  = Ok (Trajectory [[1; 2]] [[0; 0]] [[0; 0]]).
Proof. reflexivity. Qed.

Lemma invalid_configuration_first_step_witness :
  (initial_coordinates seven_dimensions
   = Ok (Trajectory [[0]; [0]] [[0]; [0]] [[0]; [0]]) /\
   (0 < step_number seven_dimensions)%nat /\
   dimensions seven_dimensions <> 1%Z /\ dimensions seven_dimensions <> 2%Z /\
   dimensions seven_dimensions <> 3%Z /\
   walk_step seven_dimensions 0 (Trajectory [[0]; [0]] [[0]; [0]] [[0]; [0]])
     ([] : list nat)
   = Raise (ValueError_dimensions 7) /\
   generate_walk_coordinates seven_dimensions ([] : list nat)
   = Raise (ValueError_dimensions 7)) /\
  (initial_coordinates bouncing_walls
   = Ok (Trajectory [[0]; [0]] [[0]; [0]] [[0]; [0]]) /\
   (0 < step_number bouncing_walls)%nat /\
   wall_mode bouncing_walls <> "exclude" /\ wall_mode bouncing_walls <> "reflect" /\
   calc_next_steps bouncing_walls (number_of_walks bouncing_walls) [0%nat]
   = Ok (([1], [0], [0]), []) /\
   walk_step bouncing_walls 0 (Trajectory [[0]; [0]] [[0]; [0]] [[0]; [0]]) [0%nat]
   = Raise (ValueError_wall_mode "bounce") /\
   generate_walk_coordinates bouncing_walls [0%nat]
   = Raise (ValueError_wall_mode "bounce")) /\
  (initial_coordinates cfg_unchecked = Ok (Trajectory [[1; 2]] [[0; 0]] [[0; 0]]) /\
   step_number cfg_unchecked = 0%nat /\
   generate_walk_coordinates cfg_unchecked ([] : list nat)
   = Ok (Trajectory [[1; 2]] [[0; 0]] [[0; 0]], [])).
Proof.
  assert (Hs : (0 < 1)%nat) by lia.
  assert (H1 : dimensions seven_dimensions <> 1%Z) by (simpl; lia).
  assert (H2 : dimensions seven_dimensions <> 2%Z) by (simpl; lia).
  assert (H3 : dimensions seven_dimensions <> 3%Z) by (simpl; lia).
  assert (He : wall_mode bouncing_walls <> "exclude") by (simpl; discriminate).
  assert (Hr : wall_mode bouncing_walls <> "reflect") by (simpl; discriminate).
  split; [|split].
  - split; [exact seven_dimensions_start|].
    split; [exact Hs|]. split; [exact H1|]. split; [exact H2|]. split; [exact H3|].
    exact (proj1 (proj1 (invalid_configuration_first_step seven_dimensions [] _
                           seven_dimensions_start) Hs) H1 H2 H3).
  - split; [exact bouncing_walls_start|].
    split; [exact Hs|]. split; [exact He|]. split; [exact Hr|].
    split; [exact bouncing_walls_sample|].
    exact (proj2 (proj1 (invalid_configuration_first_step bouncing_walls [0%nat] _
                           bouncing_walls_start) Hs) He Hr _ _ _ _
             bouncing_walls_sample).
  - split; [exact cfg_unchecked_start|]. split; [reflexivity|].
    exact (proj2 (invalid_configuration_first_step cfg_unchecked [] _
                    cfg_unchecked_start) eq_refl).
Defined.

Lemma unchecked_configuration_counterexample :
  dimensions cfg_unchecked = 7%Z /\ wall_mode cfg_unchecked = "bounce" /\
  generate_walk_coordinates cfg_unchecked ([] : list nat)
  = Ok (Trajectory [[1; 2]] [[0; 0]] [[0; 0]], []) /\
  exists rw, __init__ cfg_unchecked ([] : list nat) = Ok (rw, []).
Proof.
  split; [done|]. split; [done|]. split; [reflexivity|].
  eexists. unfold __init__, generate_walk_coordinates, cfg_unchecked,
    store_attributes, normalize. run. reflexivity.
Qed.

Lemma weighted_construction :
  exists rw, __init__ weighted [0%nat] = Ok (rw, []).
Proof.
  eexists. unfold __init__, generate_walk_coordinates, walk_step, weighted,
    store_attributes, normalize. run. reflexivity.
Qed.

Lemma probabilities_normalized_witness :
  exists rw,
    __init__ weighted [0%nat] = Ok (rw, []) /\
    angles_xy_p weighted = Some [1; 3] /\ [1; 3] <> [] /\
    Forall (fun v => 0 < v) [1; 3] /\
    exists q, angles_xy_p (rw_self rw) = Some q /\ length q = length [1; 3] /\
              np_sum q = 1.
Proof.
  destruct weighted_construction as (rw & Hinit).
  assert (H1 : angles_xy_p weighted = Some [1; 3]) by reflexivity.
  assert (H2 : [1; 3] <> ([] : list R)) by discriminate.
  assert (H3 : Forall (fun v => 0 < v) [1; 3]) by (repeat constructor; lra).
  exists rw. split; [exact Hinit|]. split; [exact H1|]. split; [exact H2|].
  split; [exact H3|].
  exact (proj1 (probabilities_normalized weighted [0%nat] rw [] Hinit) [1; 3] H1 H2 H3).
Defined.

Lemma empty_probabilities_counterexample :
  angles_xy_p unweighted = Some [] /\ Forall (fun v => 0 < v) ([] : list R) /\
  exists rw g',
    __init__ unweighted [0%nat] = Ok (rw, g') /\
    angles_xy_p (rw_self rw) = Some [] /\ np_sum [] <> 1.
Proof.
  split; [done|]. split; [constructor|].
  eexists _, _. split.
  - unfold __init__, generate_walk_coordinates, walk_step, unweighted,
      store_attributes, normalize. run. reflexivity.
  - split; [reflexivity|]. unfold np_sum. simpl. lra.
Qed.

(** * Further properties of the generator *)

Section Frame.
Context {G : Type} `{!RandomState G}.
Implicit Types (self : config) (t : trajectory) (g : G).

Lemma walk_step_frame self cs t g t' g' :
  walk_step self cs t g = Ok (t', g') -> same_rows_except cs t t'.
Proof.
  unfold walk_step. intros Hrun.
  apply bind_Ok in Hrun as ([[dx dy] dz] & g1 & Hcalc & Hrun).
  apply bind_Ok in Hrun as (cv & g2 & [Hcheck ->]%lift_Ok & Hrun).
  assert (same_rows_except cs t (moved t cs dx dy dz)) as Hmoved.
  { intros s Hs. simpl. by rewrite !advance_other. }
  destruct (wall_mode self =? "exclude")%string.
  - eapply same_rows_except_trans; [exact Hmoved|].
    by apply (exclude_loop_frame_aux _ _ _ _ _ _ _ Hrun).
  - destruct (wall_mode self =? "reflect")%string; [|done].
    apply ret_Ok in Hrun. by injection Hrun as -> ->.
Qed.

(** X1. Steps [j], [j+1], ... write rows [j+1], [j+2], ... only: a row
    that has been completed, and row 0, is never changed again. *)
Theorem completed_rows_kept self k : forall j t g t' g' s,
  for_each (walk_step self) (seq j k) t g = Ok (t', g') ->
  (s <= j)%nat ->
  traj_x t' !! s = traj_x t !! s /\
  traj_y t' !! s = traj_y t !! s /\
  traj_z t' !! s = traj_z t !! s.
Proof.
  induction k as [|k IH]; intros j t g t' g' s Hrun Hs.
  - apply ret_Ok in Hrun. by injection Hrun as -> ->.
  - simpl in Hrun. apply bind_Ok in Hrun as (t1 & g1 & Hstep & Hrun).
    apply walk_step_frame in Hstep.
    destruct (Hstep s) as (Hx & Hy & Hz); [lia|].
    destruct (IH (S j) t1 g1 t' g' s Hrun) as (Hx' & Hy' & Hz'); [lia|].
    repeat split; congruence.
Qed.

(** X2. After a successful generation each of [x], [y], [z] has
    [step_number + 1] rows of [number_of_walks] cells. *)
Theorem trajectory_shape self g t g' :
  generate_walk_coordinates self g = Ok (t, g') ->
  (length (traj_x t) = S (step_number self) /\
   length (traj_y t) = S (step_number self) /\
   length (traj_z t) = S (step_number self)) /\
  forall s r,
    traj_x t !! s = Some r \/ traj_y t !! s = Some r \/ traj_z t !! s = Some r ->
    length r = number_of_walks self.
Proof.
  intros ((Hx & Hxr) & (Hy & Hyr) & (Hz & Hzr))%generate_walk_coordinates_shaped.
  split; [done|]. intros s r [Hr|[Hr|Hr]].
  - by eapply Forall_lookup_1 in Hxr.
  - by eapply Forall_lookup_1 in Hyr.
  - by eapply Forall_lookup_1 in Hzr.
Qed.

(** X3. After a successful generation row 0 holds the start positions:
    a scalar start value in every cell, a per-walk sequence cell by cell. *)
Theorem start_invariant self g t g' :
  generate_walk_coordinates self g = Ok (t, g') ->
  exists rx ry rz,
    traj_x t !! 0%nat = Some rx /\ traj_y t !! 0%nat = Some ry /\
    traj_z t !! 0%nat = Some rz /\
    (forall v, start_x self = Scalar v -> rx = replicate (number_of_walks self) v) /\
    (forall v, start_y self = Scalar v -> ry = replicate (number_of_walks self) v) /\
    (forall v, start_z self = Scalar v -> rz = replicate (number_of_walks self) v) /\
    (forall l, start_x self = PerWalk l -> length l = number_of_walks self -> rx = l) /\
    (forall l, start_y self = PerWalk l -> length l = number_of_walks self -> ry = l) /\
    (forall l, start_z self = PerWalk l -> length l = number_of_walks self -> rz = l).
Proof.
  intros (rx & ry & rz & Hx & Hy & Hz & Hx0 & Hy0 & Hz0)%generate_start.
  exists rx, ry, rz. repeat (split; [done|]).
  repeat split.
  - intros v Hv. rewrite Hv in Hx. by injection Hx as <-.
  - intros v Hv. rewrite Hv in Hy. by injection Hy as <-.
  - intros v Hv. rewrite Hv in Hz. by injection Hz as <-.
  - intros l Hl Hlen. rewrite Hl in Hx. simpl in Hx.
    rewrite <- Hlen, Nat.eqb_refl in Hx. by injection Hx as <-.
  - intros l Hl Hlen. rewrite Hl in Hy. simpl in Hy.
    rewrite <- Hlen, Nat.eqb_refl in Hy. by injection Hy as <-.
  - intros l Hl Hlen. rewrite Hl in Hz. simpl in Hz.
    rewrite <- Hlen, Nat.eqb_refl in Hz. by injection Hz as <-.
Qed.
End Frame.

Section Walls.
Context {G : Type} `{!RandomState G}.
Implicit Types (self : config) (t : trajectory) (st : loop_state) (g : G).

(** X4. Under [wall_mode = 'exclude'], when the start positions lie
    within the limits, every coordinate of every row of a successfully
    generated trajectory, row 0 included, lies within the limits. *)
Theorem start_inside_stays_inside self g t g' :
  wall_mode self = "exclude" ->
  generate_walk_coordinates self g = Ok (t, g') ->
  (forall w vx vy vz,
      cell (traj_x t) 0 w = Some vx -> cell (traj_y t) 0 w = Some vy ->
      cell (traj_z t) 0 w = Some vz ->
      within (x_limits self) vx /\ within (y_limits self) vy /\
      within (z_limits self) vz) ->
  forall s w vx vy vz,
    cell (traj_x t) s w = Some vx -> cell (traj_y t) s w = Some vy ->
    cell (traj_z t) s w = Some vz ->
    within (x_limits self) vx /\ within (y_limits self) vy /\
    within (z_limits self) vz.
Proof.
  intros Hex Hgen Hstart s w vx vy vz Hx Hy Hz.
  destruct s as [|s]; [by eapply Hstart|].
  apply generate_walk_coordinates_Ok in Hgen as (_ & _ & ((Hlen & _) & _) & _ & Hsteps).
  assert (s < step_number self)%nat as Hs.
  { apply cell_Some in Hx as (r & Hr%lookup_lt_Some & _). lia. }
  destruct (Hsteps s Hs) as [_ Hchecked].
  destruct (Hchecked Hex) as (cv & Hcheck & Hany).
  apply check_constraints_Ok in Hcheck as (_ & _ & _ & Hcv).
  rewrite cell_row in Hx, Hy, Hz.
  specialize (Hcv w vx vy vz Hx Hy Hz).
  apply violates_false. rewrite any_false in Hany. by eapply Hany.
Qed.

Lemma retries_last self cs k st g st' g' :
  retries self cs (S k) st g st' g' ->
  exists st1 g1,
    retries self cs k st g st1 g1 /\ any (ls_violated st1) = true /\
    exclude_iteration self cs st1 g1 = Ok (st', g').
Proof.
  revert st g. induction k as [|k IH]; intros st g Hrun; inversion Hrun; subst.
  - match goal with H : retries _ _ 0 _ _ _ _ |- _ => inversion H; subst end.
    exists st, g. split; [constructor|done].
  - match goal with H : retries _ _ (S k) _ _ _ _ |- _ =>
      apply IH in H as (st2 & g2 & Hrest & Hany2 & Hiter2) end.
    exists st2, g2. split; [by econstructor|done].
Qed.

(** X5. The rejection loop of a step, entered with all counters at zero,
    passes through its body at most [max(1, constraint_counter)] times:
    [k] completed retries imply [k <= max(1, constraint_counter)], and
    when a walk is still flagged after them, [k < constraint_counter]. *)
Theorem retries_bounded self cs k st0 g st g' :
  consistent self cs st0 -> counted 0 st0 ->
  retries self cs k st0 g st g' ->
  (Z.of_nat k <= Z.max 1 (constraint_counter self))%Z /\
  ((0 < k)%nat -> any (ls_violated st) = true ->
   (Z.of_nat k < constraint_counter self)%Z).
Proof.
  intros Hcons Hcnt Hrun. split.
  - destruct k as [|[|k]]; [lia..|].
    apply retries_last in Hrun as (st1 & g1 & Hrun & Hany & _).
    destruct (retries_counted _ _ _ _ _ _ _ 0%Z Hrun Hcons Hcnt) as (_ & _ & Hlt).
    specialize (Hlt ltac:(lia) Hany). lia.
  - intros Hk Hany.
    destruct (retries_counted _ _ _ _ _ _ _ 0%Z Hrun Hcons Hcnt) as (_ & _ & Hlt).
    specialize (Hlt Hk Hany). lia.
Qed.

Lemma check_constraints_wall_mode mode self xs ys zs :
  check_constraints (with_wall_mode mode self) xs ys zs
  = check_constraints self xs ys zs.
Proof. done. Qed.

Lemma walk_step_unlimited self cs t g :
  x_limits self = None -> y_limits self = None -> z_limits self = None ->
  wall_mode self = "exclude" ->
  walk_step self cs t g = walk_step (with_wall_mode "reflect" self) cs t g.
Proof.
  intros Hx Hy Hz Hmode. unfold walk_step, mbind, M_bind, lift.
  change (calc_next_steps (with_wall_mode "reflect" self)) with (calc_next_steps self).
  change (number_of_walks (with_wall_mode "reflect" self)) with (number_of_walks self).
  destruct (calc_next_steps self _ g) as [[[[dx dy] dz] g1]|]; [|done].
  unfold check_row. rewrite check_constraints_wall_mode.
  destruct (check_constraints self _ _ _) as [cv|e] eqn:Hcheck; [|done].
  rewrite Hmode. simpl.
  apply check_constraints_unlimited in Hcheck; [|done..].
  by rewrite exclude_loop_done.
Qed.

(** X6. Without limits on any axis the rejection loop is never entered:
    generation under 'exclude' draws once per step and is the generation
    of the same configuration under 'reflect'. *)
Theorem unlimited_exclude_is_reflect self g :
  x_limits self = None -> y_limits self = None -> z_limits self = None ->
  wall_mode self = "exclude" ->
  generate_walk_coordinates self g
  = generate_walk_coordinates (with_wall_mode "reflect" self) g.
Proof.
  intros Hx Hy Hz Hmode. rewrite !generate_walk_coordinates_unfold.
  change (initial_coordinates (with_wall_mode "reflect" self))
    with (initial_coordinates self).
  change (step_number (with_wall_mode "reflect" self)) with (step_number self).
  destruct (initial_coordinates self) as [t0|]; [|done].
  apply for_each_ext. intros i a g0. by apply walk_step_unlimited.
Qed.
End Walls.

Section Failures.
Context {G : Type} `{!RandomState G}.
Implicit Types (self : config) (t : trajectory) (st : loop_state) (g : G).

Lemma random_choice_Raise a n p g e :
  random_choice a n p g = Raise e -> e = ValueError_numpy.
Proof.
  unfold random_choice. destruct (choice a n p g) as [[?|] ?]; [done|].
  by intros [= <-].
Qed.

Lemma calc_next_steps_Raise self n g e :
  calc_next_steps self n g = Raise e ->
  (e = ValueError_dimensions (dimensions self) /\
   dimensions self <> 1%Z /\ dimensions self <> 2%Z /\ dimensions self <> 3%Z) \/
  e = ValueError_numpy.
Proof.
  unfold calc_next_steps. intros Hrun.
  apply bind_Raise in Hrun as [Hrun|(xy & g1 & Hxy & Hrun)].
  - destruct (Z.eqb_spec (dimensions self) 1) as [H1|H1];
      [right; by apply random_choice_Raise in Hrun|].
    destruct (Z.eqb_spec (dimensions self) 2) as [H2|H2]; simpl in Hrun;
      [right; destruct (angles_xy self);
       [by apply random_choice_Raise in Hrun|done]|].
    destruct (Z.eqb_spec (dimensions self) 3) as [H3|H3]; simpl in Hrun;
      [right; destruct (angles_xy self);
       [by apply random_choice_Raise in Hrun|done]|].
    left. by injection Hrun as <-.
  - apply bind_Raise in Hrun as [Hrun|(xz & g2 & _ & Hrun)]; [|done].
    destruct (Z.eqb_spec (dimensions self) 1) as [H1|H1]; [done|].
    destruct (Z.eqb_spec (dimensions self) 2) as [H2|H2]; [done|].
    simpl in Hrun, Hxy.
    destruct (Z.eqb_spec (dimensions self) 3) as [H3|H3]; [|done].
    right. destruct (angles_xz self); [by apply random_choice_Raise in Hrun|done].
Qed.

Lemma exclude_iteration_Raise self cs st g e :
  shaped self (ls_coords st) -> (cs < step_number self)%nat ->
  exclude_iteration self cs st g = Raise e ->
  (e = ValueError_dimensions (dimensions self) /\
   dimensions self <> 1%Z /\ dimensions self <> 2%Z /\ dimensions self <> 3%Z) \/
  e = ValueError_numpy \/ e = AssertionError_constraints.
Proof.
  intros (Hx & Hy & Hz) Hcs. unfold exclude_iteration. intros Hrun.
  apply bind_Raise in Hrun as [Hrun|([[dx dy] dz] & g1 & _ & Hrun)];
    [apply calc_next_steps_Raise in Hrun; tauto|].
  apply bind_Raise in Hrun as [Hrun|(cv & g2 & _ & Hrun)].
  - destruct (shaped_check_row self
                (moved_masked (ls_coords st) cs (ls_violated st) dx dy dz) cs)
      as [cv Hcv]; [|done|].
    + repeat split; simpl; by apply advance_masked_well_shaped.
    + unfold lift in Hrun. by rewrite Hcv in Hrun.
  - destruct (exhausted _ _ _); [|done]. right; right. by injection Hrun as <-.
Qed.

Lemma exclude_loop_Raise self cs fuel : forall st g e,
  shaped self (ls_coords st) -> (cs < step_number self)%nat ->
  exclude_loop fuel self cs st g = Raise e ->
  any (ls_violated st) = true /\
  ((e = ValueError_dimensions (dimensions self) /\
    dimensions self <> 1%Z /\ dimensions self <> 2%Z /\ dimensions self <> 3%Z) \/
   e = ValueError_numpy \/ e = AssertionError_constraints \/ e = OutOfFuel).
Proof.
  induction fuel as [|fuel IH]; intros st g e Hshape Hcs Hrun;
    (destruct (any (ls_violated st)) eqn:Hany;
       [|by rewrite exclude_loop_done in Hrun]); split; try done.
  - simpl in Hrun. rewrite Hany in Hrun. injection Hrun as <-. tauto.
  - rewrite exclude_loop_retry in Hrun by done.
    apply bind_Raise in Hrun as [Hrun|(st1 & g1 & Hiter & Hrun)].
    + apply exclude_iteration_Raise in Hrun; [tauto|done..].
    + apply IH in Hrun as [_ Hrun]; [done| |done].
      by eapply exclude_iteration_shaped.
Qed.

Lemma walk_step_Raise self cs t g e :
  shaped self t -> (cs < step_number self)%nat ->
  walk_step self cs t g = Raise e -> failure_cause self e.
Proof.
  intros Hshape Hcs Hrun.
  assert (e <> OutOfFuel) as Hfuel
    by (intros ->; by eapply walk_step_budget).
  unfold walk_step in Hrun.
  apply bind_Raise in Hrun as [Hrun|([[dx dy] dz] & g1 & Hcalc & Hrun)];
    [apply calc_next_steps_Raise in Hrun; unfold failure_cause; tauto|].
  destruct (moved_spec _ _ _ _ _ _ _ _ Hshape Hcs Hcalc) as (Hshape1 & _).
  apply bind_Raise in Hrun as [Hrun|(cv & g2 & [Hcheck ->]%lift_Ok & Hrun)].
  { destruct (shaped_check_row _ _ _ Hshape1 Hcs) as [cv Hcv].
    unfold lift in Hrun. by rewrite Hcv in Hrun. }
  destruct (String.eqb_spec (wall_mode self) "exclude") as [Hex|Hex].
  - apply exclude_loop_Raise in Hrun as [Hany Hcause]; [|done..].
    destruct Hcause as [?|[?|[->|?]]]; unfold failure_cause; try tauto.
    right; right; right. split; [done|]. split; [done|].
    intros (Hx & Hy & Hz). simpl in Hany.
    apply check_constraints_unlimited in Hcheck; [congruence|done..].
  - destruct (String.eqb_spec (wall_mode self) "reflect") as [Hre|Hre]; [done|].
    injection Hrun as <-. unfold failure_cause. tauto.
Qed.

Lemma for_each_walk_step_Raise_cause self k : forall j t g e,
  (j + k <= step_number self)%nat -> shaped self t ->
  for_each (walk_step self) (seq j k) t g = Raise e -> failure_cause self e.
Proof.
  induction k as [|k IH]; intros j t g e Hjk Hshape Hrun; [done|].
  simpl in Hrun.
  apply bind_Raise in Hrun as [Hrun|(t1 & g1 & Hstep & Hrun)].
  - eapply walk_step_Raise; [done| |done]. lia.
  - apply walk_step_Ok in Hstep as (Hshape1 & _); [|done|lia].
    eapply IH; [|done..]. lia.
Qed.

(** X7. Generation ends with a trajectory or with one of four
    exceptions, each for its own reason: the dimension [ValueError] only
    for [dimensions] outside 1, 2, 3; the wall-mode [ValueError] only for
    a [wall_mode] other than 'exclude' and 'reflect'; a [ValueError] of
    numpy; the constraint [AssertionError] only under 'exclude' with a
    limit on some axis.  The length assertion of [check_constraints]
    never fails and no variable is read before assignment. *)
Theorem generation_failures self g e :
  generate_walk_coordinates self g = Raise e -> failure_cause self e.
Proof.
  rewrite generate_walk_coordinates_unfold.
  destruct (initial_coordinates self) as [t0|e0] eqn:Hinit.
  - apply for_each_walk_step_Raise_cause; [lia|].
    by apply initial_coordinates_shaped.
  - intros [= <-]. apply initial_coordinates_Raise in Hinit as ->.
    unfold failure_cause. tauto.
Qed.
End Failures.

(** ** Distances *)

Lemma euclidean_nonneg (a b c : R) : 0 <= euclidean a b c.
Proof. apply sqrt_pos. Qed.

Lemma euclidean_sqr (a b c : R) :
  euclidean a b c * euclidean a b c = a ^ 2 + b ^ 2 + c ^ 2.
Proof. apply sqrt_sqrt. nra. Qed.

Lemma euclidean_opp (a b c : R) : euclidean (- a) (- b) (- c) = euclidean a b c.
Proof. unfold euclidean. f_equal. ring. Qed.

Lemma euclidean_triangle (a1 a2 a3 b1 b2 b3 : R) :
  euclidean (a1 + b1) (a2 + b2) (a3 + b3)
  <= euclidean a1 a2 a3 + euclidean b1 b2 b3.
Proof.
  pose proof (euclidean_nonneg a1 a2 a3) as HA.
  pose proof (euclidean_nonneg b1 b2 b3) as HB.
  pose proof (euclidean_sqr a1 a2 a3) as HA2.
  pose proof (euclidean_sqr b1 b2 b3) as HB2.
  set (A := euclidean a1 a2 a3) in *. set (B := euclidean b1 b2 b3) in *.
  assert ((a1 * b1 + a2 * b2 + a3 * b3) ^ 2
          <= (a1 ^ 2 + a2 ^ 2 + a3 ^ 2) * (b1 ^ 2 + b2 ^ 2 + b3 ^ 2)) as Hcs.
  { pose proof (pow2_ge_0 (a1 * b2 - a2 * b1)).
    pose proof (pow2_ge_0 (a1 * b3 - a3 * b1)).
    pose proof (pow2_ge_0 (a2 * b3 - a3 * b2)). nra. }
  assert (a1 * b1 + a2 * b2 + a3 * b3 <= A * B) as Hdot.
  { destruct (Rle_or_lt (a1 * b1 + a2 * b2 + a3 * b3) (A * B)) as [|Hgt]; [done|].
    assert (0 <= A * B) by nra.
    assert ((A * B) ^ 2 < (a1 * b1 + a2 * b2 + a3 * b3) ^ 2) by nra.
    assert ((A * B) ^ 2 = (a1 ^ 2 + a2 ^ 2 + a3 ^ 2) * (b1 ^ 2 + b2 ^ 2 + b3 ^ 2))
      by (rewrite <- HA2, <- HB2; ring).
    lra. }
  unfold euclidean at 1.
  rewrite <- (sqrt_square (A + B)) by lra.
  apply sqrt_le_1_alt. nra.
Qed.

Section Reach.
Context {G : Type} `{!RandomState G}.
Implicit Types (self args : config) (t : trajectory) (g : G).

Lemma stepped_reach self t w x0 y0 z0 :
  0 <= step_length self ->
  (forall s, (s < step_number self)%nat -> stepped self t s) ->
  cell (traj_x t) 0 w = Some x0 -> cell (traj_y t) 0 w = Some y0 ->
  cell (traj_z t) 0 w = Some z0 ->
  forall s, (s <= step_number self)%nat ->
    exists xs ys zs,
      cell (traj_x t) s w = Some xs /\ cell (traj_y t) s w = Some ys /\
      cell (traj_z t) s w = Some zs /\
      euclidean (xs - x0) (ys - y0) (zs - z0) <= INR s * step_length self.
Proof.
  intros Hlen Hsteps Hx0 Hy0 Hz0. induction s as [|s IH]; intros Hs.
  - exists x0, y0, z0. repeat (split; [done|]).
    unfold euclidean. replace ((x0 - x0) ^ 2 + (y0 - y0) ^ 2 + (z0 - z0) ^ 2)
      with 0 by ring. rewrite sqrt_0. simpl. lra.
  - destruct IH as (xs & ys & zs & Hxs & Hys & Hzs & Hdist); [lia|].
    destruct (Hsteps s ltac:(lia) w xs ys zs Hxs Hys Hzs)
      as (dx & dy & dz & Hd & Hx1 & Hy1 & Hz1).
    exists (xs + dx), (ys + dy), (zs + dz). repeat (split; [done|]).
    apply is_step_length in Hd. rewrite Rabs_right in Hd by lra.
    replace (xs + dx - x0) with ((xs - x0) + dx) by lra.
    replace (ys + dy - y0) with ((ys - y0) + dy) by lra.
    replace (zs + dz - z0) with ((zs - z0) + dz) by lra.
    eapply Rle_trans; [apply euclidean_triangle|].
    rewrite S_INR, Hd. lra.
Qed.

(** X8. Over exact reals, the program agreeing within floating-point
    tolerance: after [s] steps a walk is at most [s * step_length] away
    from its start position, in Euclidean distance. *)
Theorem reach_bound self g t g' w :
  0 <= step_length self ->
  generate_walk_coordinates self g = Ok (t, g') ->
  (w < number_of_walks self)%nat ->
  forall s, (s <= step_number self)%nat ->
    exists x0 y0 z0 xs ys zs,
      cell (traj_x t) 0 w = Some x0 /\ cell (traj_y t) 0 w = Some y0 /\
      cell (traj_z t) 0 w = Some z0 /\
      cell (traj_x t) s w = Some xs /\ cell (traj_y t) s w = Some ys /\
      cell (traj_z t) s w = Some zs /\
      euclidean (xs - x0) (ys - y0) (zs - z0) <= INR s * step_length self.
Proof.
  intros Hlen Hgen Hw s Hs.
  destruct (generate_cells _ _ _ _ 0 w Hgen) as (x0 & y0 & z0 & Hx0 & Hy0 & Hz0);
    [lia|done|].
  apply generate_walk_coordinates_Ok in Hgen as (_ & _ & _ & _ & Hsteps).
  destruct (stepped_reach self t w x0 y0 z0 Hlen) with (s := s)
    as (xs & ys & zs & Hreach); [by intros s' Hs'; apply Hsteps|done..|].
  by exists x0, y0, z0, xs, ys, zs.
Qed.

(** X9. Over exact reals, the program agreeing within floating-point
    tolerance: every entry of [end2end_real] lies between 0 and
    [step_number * step_length]. *)
Theorem end2end_real_bound args g rw g' w e :
  0 <= step_length args ->
  __init__ args g = Ok (rw, g') ->
  end2end_real rw !! w = Some e ->
  0 <= e <= INR (step_number args) * step_length args.
Proof.
  intros Hlen Hinit He.
  pose proof Hinit as (t & Hgen & _ & Ht & _)%init_Ok.
  apply end2end_spec in Hinit
    as (x0 & xN & y0 & yN & z0 & zN & Hx0 & HxN & Hy0 & HyN & Hz0 & HzN
        & Hlen_real & Hentry & _).
  assert (w < number_of_walks args)%nat as Hw
    by (rewrite <- Hlen_real; by eapply lookup_lt_Some).
  destruct (generate_cells _ _ _ _ 0 w Hgen) as (vx0 & vy0 & vz0 & Hc1 & Hc2 & Hc3);
    [lia|done|].
  pose proof Hgen as (_ & _ & _ & _ & Hsteps)%generate_walk_coordinates_Ok.
  destruct (stepped_reach (store_attributes args) t w vx0 vy0 vz0 Hlen)
    with (s := step_number args) as (vxN & vyN & vzN & Hc4 & Hc5 & Hc6 & Hd);
    [by intros s' Hs'; apply Hsteps|done..|simpl; lia|].
  rewrite <- Ht in *. unfold cell in *.
  rewrite Hx0 in Hc1. rewrite Hy0 in Hc2. rewrite Hz0 in Hc3.
  rewrite HxN in Hc4. rewrite HyN in Hc5. rewrite HzN in Hc6. simpl in *.
  rewrite (Hentry w _ _ _ _ _ _ Hc1 Hc4 Hc2 Hc5 Hc3 Hc6) in He.
  injection He as <-. split; [apply euclidean_nonneg|].
  rewrite <- euclidean_opp.
  replace (- (vx0 - vxN)) with (vxN - vx0) by lra.
  replace (- (vy0 - vyN)) with (vyN - vy0) by lra.
  replace (- (vz0 - vzN)) with (vzN - vz0) by lra. done.
Qed.
End Reach.

(** ** The two end-to-end statistics *)

Lemma np_sum_cons (v : R) (l : list R) : np_sum (v :: l) = v + np_sum l.
Proof. done. Qed.

Lemma np_sum_zip_with_plus (a b : list R) :
  length a = length b -> np_sum (zip_with Rplus a b) = np_sum a + np_sum b.
Proof.
  revert b. induction a as [|u a IH]; intros [|v b] Hlen; try done.
  - unfold np_sum. simpl. lra.
  - cbn [zip_with]. rewrite !np_sum_cons, IH by (simpl in Hlen; lia). lra.
Qed.

Lemma sqr_sqrt_fmap (l : list R) :
  Forall (fun v => 0 <= v) l -> (fun e => e ^ 2) <$> (sqrt <$> l) = l.
Proof.
  induction 1 as [|v l Hv Hl IH]; [done|].
  rewrite !fmap_cons, IH. f_equal. simpl. rewrite Rmult_1_r. by apply sqrt_sqrt.
Qed.

Lemma squared_displacement_nonneg (a : list (list R)) :
  Forall (fun v => 0 <= v) (squared_displacement a).
Proof.
  unfold squared_displacement. apply Forall_forall. intros v Hv.
  apply elem_of_lookup_zip_with in Hv as (i & first & final & -> & _).
  apply pow2_ge_0.
Qed.

Lemma Forall_zip_with_plus_nonneg (a b : list R) :
  Forall (fun v => 0 <= v) a -> Forall (fun v => 0 <= v) b ->
  Forall (fun v => 0 <= v) (zip_with Rplus a b).
Proof.
  intros Ha. revert b. induction Ha as [|u a Hu Ha IH]; intros b Hb; [done|].
  destruct Hb as [|v b Hv Hb]; [done|]. simpl. constructor; [lra|by apply IH].
Qed.

(** The square of a sum is at most the count times the sum of squares. *)
Lemma np_sum_sqr_le (l : list R) :
  np_sum l ^ 2 <= INR (length l) * np_sum ((fun e => e ^ 2) <$> l).
Proof.
  induction l as [|e l IH].
  - unfold np_sum. simpl. lra.
  - rewrite fmap_cons, !np_sum_cons. cbn [length]. rewrite S_INR.
    set (S1 := np_sum l) in *. set (Q := np_sum ((fun e => e ^ 2) <$> l)) in *.
    pose proof (pos_INR (length l)) as Hn. set (n := INR (length l)) in *.
    assert (0 <= Q) as HQ.
    { unfold Q. clear. induction l as [|v l IH]; [unfold np_sum; simpl; lra|].
      rewrite fmap_cons, np_sum_cons. pose proof (pow2_ge_0 v). lra. }
    assert (2 * e * S1 <= n * e ^ 2 + Q) as Hmix.
    { destruct (Req_dec n 0) as [Hn0|Hn0].
      - assert (S1 = 0) as -> by (rewrite Hn0 in IH; nra). nra.
      - assert (0 < n) by lra.
        pose proof (pow2_ge_0 (n * e - S1)).
        assert (n * (2 * e * S1) <= n * (n * e ^ 2 + Q)) by nra.
        by apply Rmult_le_reg_l with n. }
    nra.
Qed.

Section Statistics.
Context {G : Type} `{!RandomState G}.
Implicit Types (args : config) (g : G).

Lemma end2end_displacements args g rw g' :
  __init__ args g = Ok (rw, g') ->
  exists dx2 dy2 dz2 : list R,
    length dx2 = number_of_walks args /\ length dy2 = number_of_walks args /\
    length dz2 = number_of_walks args /\
    Forall (fun v => 0 <= v) dx2 /\ Forall (fun v => 0 <= v) dy2 /\
    Forall (fun v => 0 <= v) dz2 /\
    end2end_real rw = sqrt <$> zip_with Rplus (zip_with Rplus dx2 dy2) dz2 /\
    end2end rw = sqrt (np_mean dx2 + np_mean dy2 + np_mean dz2).
Proof.
  intros (t & Hgen & _ & _ & Hreal & Hmean)%init_Ok.
  apply generate_walk_coordinates_shaped in Hgen as (Hx & Hy & Hz).
  exists (squared_displacement (traj_x t)), (squared_displacement (traj_y t)),
    (squared_displacement (traj_z t)).
  split; [|split; [|split]].
  - apply squared_displacement_rows in Hx as (? & ? & _ & _ & ? & ? & ->).
    rewrite length_zip_with. simpl in *. lia.
  - apply squared_displacement_rows in Hy as (? & ? & _ & _ & ? & ? & ->).
    rewrite length_zip_with. simpl in *. lia.
  - apply squared_displacement_rows in Hz as (? & ? & _ & _ & ? & ? & ->).
    rewrite length_zip_with. simpl in *. lia.
  - auto using squared_displacement_nonneg.
Qed.

Lemma root_mean_square (n : nat) (dx2 dy2 dz2 : list R) :
  length dx2 = n -> length dy2 = n -> length dz2 = n ->
  Forall (fun v => 0 <= v) dx2 -> Forall (fun v => 0 <= v) dy2 ->
  Forall (fun v => 0 <= v) dz2 ->
  sqrt (np_mean dx2 + np_mean dy2 + np_mean dz2)
  = sqrt (np_mean ((fun e => e ^ 2)
                     <$> (sqrt <$> zip_with Rplus (zip_with Rplus dx2 dy2) dz2))).
Proof.
  intros Hlx Hly Hlz Hx Hy Hz.
  rewrite sqr_sqrt_fmap by auto using Forall_zip_with_plus_nonneg.
  f_equal. unfold np_mean.
  rewrite !length_zip_with, !np_sum_zip_with_plus
    by (rewrite ?length_zip_with; lia).
  rewrite Hlx, Hly, Hlz, !Nat.min_id. lra.
Qed.

(** X10. Over exact reals, the program agreeing within floating-point
    tolerance: with at least one walk (numpy's mean of no value is not a
    number), [end2end] is the root mean square of [end2end_real]. *)
Theorem end2end_root_mean_square args g rw g' :
  (0 < number_of_walks args)%nat ->
  __init__ args g = Ok (rw, g') ->
  end2end rw = sqrt (np_mean ((fun e => e ^ 2) <$> end2end_real rw)).
Proof.
  intros _ (dx2 & dy2 & dz2 & Hlx & Hly & Hlz & Hx & Hy & Hz & -> & ->)
    %end2end_displacements.
  by eapply root_mean_square.
Qed.

(** X11. Over exact reals, the program agreeing within floating-point
    tolerance: with at least one walk, the mean of [end2end_real] does
    not exceed [end2end]. *)
Theorem end2end_real_mean_le args g rw g' :
  (0 < number_of_walks args)%nat ->
  __init__ args g = Ok (rw, g') ->
  np_mean (end2end_real rw) <= end2end rw.
Proof.
  intros Hn Hinit.
  apply end2end_displacements in Hinit
    as (dx2 & dy2 & dz2 & Hlx & Hly & Hlz & Hx & Hy & Hz & Hreal & ->).
  rewrite (root_mean_square _ _ _ _ Hlx Hly Hlz Hx Hy Hz), <- Hreal.
  assert (length (end2end_real rw) = number_of_walks args) as Hlen
    by (rewrite Hreal, length_fmap, !length_zip_with; lia).
  set (l := end2end_real rw) in *. clearbody l. clear Hreal.
  pose proof (np_sum_sqr_le l) as Hle. unfold np_mean.
  rewrite length_fmap, Hlen in *.
  set (n := INR (number_of_walks args)) in *.
  assert (0 < n) as Hpos by (apply lt_0_INR; lia).
  set (S1 := np_sum l) in *. set (Q := np_sum ((fun e => e ^ 2) <$> l)) in *.
  assert ((S1 / n) ^ 2 <= Q / n) as Hsq.
  { replace ((S1 / n) ^ 2) with (S1 ^ 2 / n / n) by (field; lra).
    apply Rmult_le_reg_r with n; [done|].
    replace (S1 ^ 2 / n / n * n) with (S1 ^ 2 / n) by (field; lra).
    replace (Q / n * n) with Q by (field; lra).
    apply Rmult_le_reg_r with n; [done|].
    replace (S1 ^ 2 / n * n) with (S1 ^ 2) by (field; lra). lra. }
  eapply Rle_trans; [apply Rle_abs|].
  rewrite <- sqrt_Rsqr_abs. apply sqrt_le_1_alt. unfold Rsqr. lra.
Qed.
End Statistics.

Lemma mean_squared_displacement_same (r : list R) :
  mean_squared_displacement r r = 0.
Proof.
  unfold mean_squared_displacement.
  assert (np_sum (zip_with (fun a b => (a - b) ^ 2) r r) = 0) as ->; [|lra].
  induction r as [|v r IH]; [done|].
  cbn [zip_with]. rewrite np_sum_cons, IH. ring.
Qed.

Section Edge.
Context {G : Type} `{!RandomState G}.
Implicit Types (args self : config) (g : G).

(** X12. A walk of zero steps has gone nowhere: [end2end_real] has one
    entry per walk, every entry is 0, and with at least one walk (numpy's
    mean of no value is not a number) [end2end] is 0. *)
Theorem zero_steps_distances args g rw g' :
  step_number args = 0%nat ->
  __init__ args g = Ok (rw, g') ->
  length (end2end_real rw) = number_of_walks args /\
  (forall w e, end2end_real rw !! w = Some e -> e = 0) /\
  ((0 < number_of_walks args)%nat -> end2end rw = 0).
Proof.
  intros H0 Hinit.
  pose proof Hinit as (t & Hgen & _ & _ & Hreal & _)%init_Ok.
  apply generate_walk_coordinates_shaped in Hgen as ((Hx & _) & (Hy & _) & (Hz & _)).
  apply end2end_spec in Hinit
    as (x0 & xN & y0 & yN & z0 & zN & Hx0 & HxN & Hy0 & HyN & Hz0 & HzN
        & Hlen & _ & Hend).
  rewrite H0 in HxN, HyN, HzN.
  assert (xN = x0) as -> by congruence. assert (yN = y0) as -> by congruence.
  assert (zN = z0) as -> by congruence.
  split; [done|]. split.
  - intros w e. rewrite Hreal. unfold squared_displacement.
    change (step_number (store_attributes args)) with (step_number args) in *.
    rewrite Hx, Hy, Hz, H0. simpl.
    intros (s & -> & Hs)%list_lookup_fmap_Some.
    apply lookup_zip_with_Some in Hs as (sxy & sz & -> & Hsxy & Hsz).
    apply lookup_zip_with_Some in Hsxy as (sx & sy & -> & Hsx & Hsy).
    apply lookup_zip_with_Some in Hsx as (ux & vx & -> & Hux & Hvx).
    apply lookup_zip_with_Some in Hsy as (uy & vy & -> & Huy & Hvy).
    apply lookup_zip_with_Some in Hsz as (uz & vz & -> & Huz & Hvz).
    assert (vx = ux) as -> by congruence. assert (vy = uy) as -> by congruence.
    assert (vz = uz) as -> by congruence.
    match goal with |- sqrt ?d = 0 => replace d with 0 by (simpl; ring) end.
    apply sqrt_0.
  - intros _. rewrite Hend, !mean_squared_displacement_same.
    replace (0 + 0 + 0) with 0 by lra. apply sqrt_0.
Qed.
End Edge.

(** ** Probabilities, directions, masks *)

Lemma np_sum_scale_l (c : R) (p : list R) :
  np_sum ((fun v => c * v) <$> p) = c * np_sum p.
Proof.
  induction p as [|v p IH]; [unfold np_sum; simpl; lra|].
  rewrite fmap_cons, !np_sum_cons, IH. lra.
Qed.

(** X13. Over exact reals, the program agreeing within floating-point
    tolerance: only the ratios of the given probabilities matter.
    Multiplying them all by a non-zero factor stores the same vector, and
    a vector that is already normalised is stored as it is. *)
Theorem relative_probabilities (c : R) (p : list R) :
  c <> 0 -> np_sum p <> 0 ->
  normalize ((fun v => c * v) <$> p) = normalize p /\
  normalize (normalize p) = normalize p.
Proof.
  intros Hc Hp. split.
  - unfold normalize. rewrite np_sum_scale_l.
    change (map ?f ((fun v => c * v) <$> p)) with (f <$> ((fun v => c * v) <$> p)).
    rewrite <- list_fmap_compose. apply list_fmap_ext. intros _ v _. simpl.
    field. done.
  - assert (np_sum (normalize p) = 1) as Hone.
    { unfold normalize.
      change (map ?f p) with (f <$> p). rewrite np_sum_scale. by field. }
    unfold normalize at 1. rewrite Hone.
    change (map ?f ?l) with (f <$> l).
    rewrite <- (list_fmap_id (normalize p)) at 2.
    apply list_fmap_ext. intros _ v _. simpl. lra.
Qed.

Section Directions.
Context {G : Type} `{!RandomState G}.
Implicit Types (self : config) (g : G).

(** X14. With a list of allowed angles, every displacement drawn uses an
    allowed angle.  In two dimensions it is the expression the code
    evaluates at the polar angle [pi/2] and an [a] of [angles_xy]:
    [(cos a * sin (pi/2), sin a * sin (pi/2), cos (pi/2)) * step_length];
    in three dimensions the polar angle is taken from [angles_xz] as
    well, when that list is given. *)
Theorem allowed_directions self n g dx dy dz g' :
  calc_next_steps self n g = Ok ((dx, dy, dz), g') ->
  (forall a, dimensions self = 2%Z -> angles_xy self = Some a ->
     forall k sx sy sz,
       dx !! k = Some sx -> dy !! k = Some sy -> dz !! k = Some sz ->
       exists xy, In xy a /\
         sx = cos xy * sin (PI / 2) * step_length self /\
         sy = sin xy * sin (PI / 2) * step_length self /\
         sz = cos (PI / 2) * step_length self) /\
  (forall a b, dimensions self = 3%Z -> angles_xy self = Some a ->
     angles_xz self = Some b ->
     forall k sx sy sz,
       dx !! k = Some sx -> dy !! k = Some sy -> dz !! k = Some sz ->
       exists xy xz, In xy a /\ In xz b /\
         sx = cos xy * sin xz * step_length self /\
         sy = sin xy * sin xz * step_length self /\
         sz = cos xz * step_length self).
Proof.
  unfold calc_next_steps. intros Hrun.
  apply bind_Ok in Hrun as (lxy & g1 & Hxy & Hrun).
  apply bind_Ok in Hrun as (lxz & g2 & Hxz & Hrun).
  apply ret_Ok in Hrun. injection Hrun as -> -> -> ->. split.
  - intros a Hd Ha k sx sy sz Hsx Hsy Hsz.
    rewrite Hd, Ha in Hxy. rewrite Hd in Hxz. simpl in Hxy, Hxz.
    apply random_choice_Ok in Hxy as [_ Hin].
    apply ret_Ok in Hxz. injection Hxz as -> ->.
    apply lookup_zip_with_Some in Hsx as (xy & xz & -> & Hk & Hk').
    apply lookup_zip_with_Some in Hsy as (xy' & xz' & -> & Hk2 & Hk2').
    apply list_lookup_fmap_Some in Hsz as (xz'' & -> & Hk3).
    assert (xy' = xy) as -> by congruence.
    apply lookup_replicate in Hk' as [-> _]. apply lookup_replicate in Hk2' as [-> _].
    apply lookup_replicate in Hk3 as [-> _].
    exists xy. split; [by eapply Forall_lookup_1 in Hin|]. done.
  - intros a b Hd Ha Hb k sx sy sz Hsx Hsy Hsz.
    rewrite Hd, Ha in Hxy. rewrite Hd, Hb in Hxz. simpl in Hxy, Hxz.
    apply random_choice_Ok in Hxy as [_ Hina].
    apply random_choice_Ok in Hxz as [_ Hinb].
    apply lookup_zip_with_Some in Hsx as (xy & xz & -> & Hk & Hk').
    apply lookup_zip_with_Some in Hsy as (xy' & xz' & -> & Hk2 & Hk2').
    apply list_lookup_fmap_Some in Hsz as (xz'' & -> & Hk3).
    assert (xy' = xy) as -> by congruence. assert (xz' = xz) as -> by congruence.
    assert (xz'' = xz) as -> by congruence.
    exists xy, xz. split; [by eapply Forall_lookup_1 in Hina|].
    split; [by eapply Forall_lookup_1 in Hinb|]. done.
Qed.
End Directions.

(** ** Displacements and the retry budget *)

Section Budgets.
Context {G : Type} `{!RandomState G}.
Implicit Types (self : config) (t : trajectory) (st : loop_state) (g : G).

(** X15. [calc_next_steps] returns one displacement per requested
    sample; over exact reals, the program agreeing within floating-point
    tolerance, each displacement has Euclidean length [|step_length|]. *)
Theorem displacements_drawn self n g dx dy dz g' :
  calc_next_steps self n g = Ok ((dx, dy, dz), g') ->
  length dx = n /\ length dy = n /\ length dz = n /\
  forall k sx sy sz,
    dx !! k = Some sx -> dy !! k = Some sy -> dz !! k = Some sz ->
    euclidean sx sy sz = Rabs (step_length self).
Proof.
  intros Hcalc.
  destruct (calc_next_steps_length _ _ _ _ _ _ _ Hcalc) as (Hx & Hy & Hz).
  repeat (split; [done|]). intros k sx sy sz Hsx Hsy Hsz.
  assert (k < n)%nat as Hk by (rewrite <- Hx; by eapply lookup_lt_Some).
  destruct (calc_next_steps_lookup _ _ _ _ _ _ _ _ Hcalc Hk)
    as (sx' & sy' & sz' & Hsx' & Hsy' & Hsz' & Hstep).
  assert (sx' = sx) as -> by congruence. assert (sy' = sy) as -> by congruence.
  assert (sz' = sz) as -> by congruence. by apply is_step_length.
Qed.

Lemma exhausted_budget self c cv counter :
  (constraint_counter self <= c)%Z ->
  exhausted self cv counter = false ->
  exhausted (with_constraint_counter c self) cv counter = false.
Proof.
  intros Hc Hex. destruct (exhausted (with_constraint_counter c self) cv counter)
    eqn:Hex'; [|done].
  apply exhausted_true in Hex' as (w & v & Hw & Hv & Hge). simpl in Hge.
  assert (exhausted self cv counter = true); [|congruence].
  apply exhausted_true. exists w, v. repeat split; try done. lia.
Qed.

Lemma exclude_iteration_budget_up self c cs st g st' g' :
  (constraint_counter self <= c)%Z ->
  exclude_iteration self cs st g = Ok (st', g') ->
  exclude_iteration (with_constraint_counter c self) cs st g = Ok (st', g').
Proof.
  intros Hc. unfold exclude_iteration, mbind, M_bind, lift.
  change (calc_next_steps (with_constraint_counter c self))
    with (calc_next_steps self).
  destruct (calc_next_steps self _ g) as [[[[dx dy] dz] g1]|]; [|done].
  change (check_row (with_constraint_counter c self)) with (check_row self).
  destruct (check_row self _ cs) as [cv|]; [|done].
  destruct (exhausted self cv _) eqn:Hex; [done|].
  by rewrite (exhausted_budget _ _ _ _ Hc Hex).
Qed.

Lemma exclude_loop_budget_up self c cs fuel : forall fuel' st g t' g',
  (constraint_counter self <= c)%Z -> (fuel <= fuel')%nat ->
  exclude_loop fuel self cs st g = Ok (t', g') ->
  exclude_loop fuel' (with_constraint_counter c self) cs st g = Ok (t', g').
Proof.
  induction fuel as [|fuel IH]; intros fuel' st g t' g' Hc Hfuel Hrun;
    (destruct (any (ls_violated st)) eqn:Hany;
       [|rewrite exclude_loop_done in Hrun |- * by done; done]).
  - simpl in Hrun. by rewrite Hany in Hrun.
  - destruct fuel' as [|fuel']; [lia|].
    rewrite exclude_loop_retry in Hrun |- * by done.
    apply bind_Ok in Hrun as (st1 & g1 & Hiter & Hrun).
    apply bind_Ok. exists st1, g1. split.
    + by apply exclude_iteration_budget_up.
    + apply IH; [done|lia|done].
Qed.

Lemma walk_step_budget_up self c cs t g t' g' :
  (constraint_counter self <= c)%Z ->
  walk_step self cs t g = Ok (t', g') ->
  walk_step (with_constraint_counter c self) cs t g = Ok (t', g').
Proof.
  intros Hc. unfold walk_step, mbind, M_bind, lift.
  change (calc_next_steps (with_constraint_counter c self))
    with (calc_next_steps self).
  change (number_of_walks (with_constraint_counter c self))
    with (number_of_walks self).
  change (wall_mode (with_constraint_counter c self)) with (wall_mode self).
  destruct (calc_next_steps self _ g) as [[[[dx dy] dz] g1]|]; [|done].
  change (check_row (with_constraint_counter c self)) with (check_row self).
  destruct (check_row self _ cs) as [cv|]; [|done].
  destruct (wall_mode self =? "exclude")%string; [|done].
  apply exclude_loop_budget_up; [done|]. unfold exclude_fuel. simpl. lia.
Qed.

(** X16. A larger retry budget never changes a successful generation:
    what succeeds with [constraint_counter] succeeds with every larger
    value, with the same trajectory and the same random numbers used. *)
Theorem larger_budget_same_trajectory self c g t g' :
  (constraint_counter self <= c)%Z ->
  generate_walk_coordinates self g = Ok (t, g') ->
  generate_walk_coordinates (with_constraint_counter c self) g = Ok (t, g').
Proof.
  intros Hc. rewrite !generate_walk_coordinates_unfold.
  change (initial_coordinates (with_constraint_counter c self))
    with (initial_coordinates self).
  change (step_number (with_constraint_counter c self)) with (step_number self).
  destruct (initial_coordinates self) as [t0|]; [|done].
  generalize (seq 0 (step_number self)). intros l. revert t0 g.
  induction l as [|i l IH]; intros t0 g Hrun; [done|].
  simpl in *. apply bind_Ok in Hrun as (t1 & g1 & Hstep & Hrun).
  apply bind_Ok. exists t1, g1. split; [by apply walk_step_budget_up|by apply IH].
Qed.
End Budgets.

(** * The further properties on the examples *)

Lemma outside_steps :
  for_each (walk_step outside) (seq 0 1)
    (Trajectory [[2]; [0]] [[0]; [0]] [[0]; [0]]) [1%nat]
  = Ok (Trajectory [[2]; [1]] [[0]; [0]] [[0]; [0]], []).
Proof. unfold walk_step, outside. run. same_values. Qed.

Lemma completed_rows_kept_witness :
  for_each (walk_step outside) (seq 0 1)
    (Trajectory [[2]; [0]] [[0]; [0]] [[0]; [0]]) [1%nat]
  = Ok (Trajectory [[2]; [1]] [[0]; [0]] [[0]; [0]], []) /\
  (0 <= 0)%nat /\
  traj_x (Trajectory [[2]; [1]] [[0]; [0]] [[0]; [0]]) !! 0%nat = Some [2] /\
  traj_y (Trajectory [[2]; [1]] [[0]; [0]] [[0]; [0]]) !! 0%nat = Some [0] /\
  traj_z (Trajectory [[2]; [1]] [[0]; [0]] [[0]; [0]]) !! 0%nat = Some [0].
Proof.
  split; [exact outside_steps|]. split; [lia|].
  exact (completed_rows_kept outside 1 0%nat _ _ _ _ 0%nat outside_steps (le_n 0)).
Defined.

Lemma trajectory_shape_witness :
  generate_walk_coordinates bounce [1; 0; 0]%nat = Ok (bounce_walk, []) /\
  (length (traj_x bounce_walk) = S (step_number bounce) /\
   length (traj_y bounce_walk) = S (step_number bounce) /\
   length (traj_z bounce_walk) = S (step_number bounce)) /\
  forall s r,
    traj_x bounce_walk !! s = Some r \/ traj_y bounce_walk !! s = Some r \/
    traj_z bounce_walk !! s = Some r ->
    length r = number_of_walks bounce.
Proof.
  split; [exact bounce_generation|].
  exact (trajectory_shape bounce [1; 0; 0]%nat bounce_walk [] bounce_generation).
Defined.

Lemma start_invariant_witness :
  generate_walk_coordinates outside [1%nat]
  = Ok (Trajectory [[2]; [1]] [[0]; [0]] [[0]; [0]], []) /\
  exists rx ry rz,
    traj_x (Trajectory [[2]; [1]] [[0]; [0]] [[0]; [0]]) !! 0%nat = Some rx /\
    traj_y (Trajectory [[2]; [1]] [[0]; [0]] [[0]; [0]]) !! 0%nat = Some ry /\
    traj_z (Trajectory [[2]; [1]] [[0]; [0]] [[0]; [0]]) !! 0%nat = Some rz /\
    (forall v, start_x outside = Scalar v -> rx = replicate (number_of_walks outside) v) /\
    (forall v, start_y outside = Scalar v -> ry = replicate (number_of_walks outside) v) /\
    (forall v, start_z outside = Scalar v -> rz = replicate (number_of_walks outside) v) /\
    (forall l, start_x outside = PerWalk l -> length l = number_of_walks outside -> rx = l) /\
    (forall l, start_y outside = PerWalk l -> length l = number_of_walks outside -> ry = l) /\
    (forall l, start_z outside = PerWalk l -> length l = number_of_walks outside -> rz = l).
Proof.
  split; [exact outside_generation|].
  exact (start_invariant outside [1%nat] _ [] outside_generation).
Defined.

Lemma bounce_starts_inside (w : nat) (vx vy vz : R) :
  cell (traj_x bounce_walk) 0 w = Some vx ->
  cell (traj_y bounce_walk) 0 w = Some vy ->
  cell (traj_z bounce_walk) 0 w = Some vz ->
  within (x_limits bounce) vx /\ within (y_limits bounce) vy /\
  within (z_limits bounce) vz.
Proof.
  destruct w as [|[|w]]; simpl; try done; intros [= <-] _ _; repeat split; lra.
Qed.

Lemma start_inside_stays_inside_witness :
  wall_mode bounce = "exclude" /\
  generate_walk_coordinates bounce [1; 0; 0]%nat = Ok (bounce_walk, []) /\
  cell (traj_x bounce_walk) 1 0 = Some 1 /\
  cell (traj_y bounce_walk) 1 0 = Some 0 /\
  cell (traj_z bounce_walk) 1 0 = Some 0 /\
  within (x_limits bounce) 1 /\ within (y_limits bounce) 0 /\
  within (z_limits bounce) 0.
Proof.
  assert (H1 : wall_mode bounce = "exclude") by reflexivity.
  split; [exact H1|]. split; [exact bounce_generation|].
  split; [reflexivity|]. split; [reflexivity|]. split; [reflexivity|].
  exact (start_inside_stays_inside bounce [1; 0; 0]%nat bounce_walk [] H1
           bounce_generation bounce_starts_inside 1%nat 0%nat 1 0 0
           eq_refl eq_refl eq_refl).
Defined.

Lemma tight_first_attempt_consistent : consistent tight 0 tight_first_attempt.
Proof. unfold consistent, tight, tight_first_attempt. run. done. Qed.

Lemma tight_first_attempt_counted : counted 0 tight_first_attempt.
Proof.
  split; [done|]. intros [|w]; simpl; [done|]. by rewrite lookup_nil.
Qed.

Lemma tight_retry :
  retries tight 0 1 tight_first_attempt [0; 0]%nat tight_second_attempt [0%nat].
Proof.
  eapply retries_S; [reflexivity| |apply retries_O].
  unfold tight, tight_first_attempt, tight_second_attempt. run. same_values.
Qed.

Lemma retries_bounded_witness :
  consistent tight 0 tight_first_attempt /\ counted 0 tight_first_attempt /\
  retries tight 0 1 tight_first_attempt [0; 0]%nat tight_second_attempt [0%nat] /\
  (0 < 1)%nat /\ any (ls_violated tight_second_attempt) = true /\
  (Z.of_nat 1 <= Z.max 1 (constraint_counter tight))%Z /\
  (Z.of_nat 1 < constraint_counter tight)%Z.
Proof.
  assert (H4 : (0 < 1)%nat) by lia.
  assert (H5 : any (ls_violated tight_second_attempt) = true) by reflexivity.
  split; [exact tight_first_attempt_consistent|].
  split; [exact tight_first_attempt_counted|]. split; [exact tight_retry|].
  split; [exact H4|]. split; [exact H5|].
  destruct (retries_bounded tight 0 1 tight_first_attempt [0; 0]%nat
              tight_second_attempt [0%nat] tight_first_attempt_consistent
              tight_first_attempt_counted tight_retry) as [Hle Hlt].
  split; [exact Hle|]. exact (Hlt H4 H5).
Defined.

Lemma unlimited_exclude_is_reflect_witness :
  x_limits pair = None /\ y_limits pair = None /\ z_limits pair = None /\
  wall_mode pair = "exclude" /\
  generate_walk_coordinates pair [0; 0; 1; 0]%nat
  = generate_walk_coordinates (with_wall_mode "reflect" pair) [0; 0; 1; 0]%nat.
Proof.
  split; [reflexivity|]. split; [reflexivity|]. split; [reflexivity|].
  split; [reflexivity|].
  exact (unlimited_exclude_is_reflect pair [0; 0; 1; 0]%nat
           eq_refl eq_refl eq_refl eq_refl).
Defined.

Lemma tight_generation :
  generate_walk_coordinates tight [0; 0; 0]%nat = Raise AssertionError_constraints.
Proof. unfold generate_walk_coordinates, walk_step, tight. run. done. Qed.

Lemma generation_failures_witness :
  generate_walk_coordinates tight [0; 0; 0]%nat = Raise AssertionError_constraints /\
  failure_cause tight AssertionError_constraints.
Proof.
  split; [exact tight_generation|].
  exact (generation_failures tight [0; 0; 0]%nat _ tight_generation).
Defined.

Lemma reach_bound_witness :
  0 <= step_length bounce /\
  generate_walk_coordinates bounce [1; 0; 0]%nat = Ok (bounce_walk, []) /\
  (0 < number_of_walks bounce)%nat /\ (1 <= step_number bounce)%nat /\
  exists x0 y0 z0 xs ys zs,
    cell (traj_x bounce_walk) 0 0 = Some x0 /\
    cell (traj_y bounce_walk) 0 0 = Some y0 /\
    cell (traj_z bounce_walk) 0 0 = Some z0 /\
    cell (traj_x bounce_walk) 1 0 = Some xs /\
    cell (traj_y bounce_walk) 1 0 = Some ys /\
    cell (traj_z bounce_walk) 1 0 = Some zs /\
    euclidean (xs - x0) (ys - y0) (zs - z0) <= INR 1 * step_length bounce.
Proof.
  assert (H1 : 0 <= step_length bounce) by (simpl; lra).
  assert (H3 : (0 < number_of_walks bounce)%nat) by (simpl; lia).
  assert (H4 : (1 <= step_number bounce)%nat) by (simpl; lia).
  split; [exact H1|]. split; [exact bounce_generation|]. split; [exact H3|].
  split; [exact H4|].
  exact (reach_bound bounce [1; 0; 0]%nat bounce_walk [] 0%nat H1 bounce_generation
           H3 1%nat H4).
Defined.

Lemma pair_distances :
  exists rw e,
    __init__ pair [0; 0; 1; 0]%nat = Ok (rw, []) /\
    end2end_real rw !! 1%nat = Some e.
Proof.
  eexists _, _. split.
  - unfold __init__, generate_walk_coordinates, walk_step, pair, store_attributes,
      squared_displacement. run. reflexivity.
  - reflexivity.
Qed.

Lemma end2end_real_bound_witness :
  exists rw e,
    0 <= step_length pair /\
    __init__ pair [0; 0; 1; 0]%nat = Ok (rw, []) /\
    end2end_real rw !! 1%nat = Some e /\
    0 <= e <= INR (step_number pair) * step_length pair.
Proof.
  destruct pair_distances as (rw & e & Hinit & He).
  assert (H1 : 0 <= step_length pair) by (simpl; lra).
  exists rw, e. split; [exact H1|]. split; [exact Hinit|]. split; [exact He|].
  exact (end2end_real_bound pair [0; 0; 1; 0]%nat rw [] 1%nat e H1 Hinit He).
Defined.

Lemma end2end_root_mean_square_witness :
  exists rw,
    (0 < number_of_walks pair)%nat /\
    __init__ pair [0; 0; 1; 0]%nat = Ok (rw, []) /\
    end2end rw = sqrt (np_mean ((fun e => e ^ 2) <$> end2end_real rw)).
Proof.
  destruct pair_distances as (rw & e & Hinit & _).
  assert (H1 : (0 < number_of_walks pair)%nat) by (simpl; lia).
  exists rw. split; [exact H1|]. split; [exact Hinit|].
  exact (end2end_root_mean_square pair [0; 0; 1; 0]%nat rw [] H1 Hinit).
Defined.

Lemma end2end_real_mean_le_witness :
  exists rw,
    (0 < number_of_walks pair)%nat /\
    __init__ pair [0; 0; 1; 0]%nat = Ok (rw, []) /\
    np_mean (end2end_real rw) <= end2end rw.
Proof.
  destruct pair_distances as (rw & e & Hinit & _).
  assert (H1 : (0 < number_of_walks pair)%nat) by (simpl; lia).
  exists rw. split; [exact H1|]. split; [exact Hinit|].
  exact (end2end_real_mean_le pair [0; 0; 1; 0]%nat rw [] H1 Hinit).
Defined.

Lemma unchecked_construction :
  exists rw, __init__ cfg_unchecked ([] : list nat) = Ok (rw, []).
Proof.
  eexists. unfold __init__, generate_walk_coordinates, cfg_unchecked,
    store_attributes, normalize. run. reflexivity.
Qed.

Lemma zero_steps_distances_witness :
  exists rw,
    step_number cfg_unchecked = 0%nat /\
    __init__ cfg_unchecked ([] : list nat) = Ok (rw, []) /\
    (0 < number_of_walks cfg_unchecked)%nat /\
    length (end2end_real rw) = number_of_walks cfg_unchecked /\
    (forall w e, end2end_real rw !! w = Some e -> e = 0) /\
    end2end rw = 0.
Proof.
  destruct unchecked_construction as (rw & Hinit).
  assert (Hn : (0 < number_of_walks cfg_unchecked)%nat) by (simpl; lia).
  exists rw. split; [reflexivity|]. split; [exact Hinit|]. split; [exact Hn|].
  destruct (zero_steps_distances cfg_unchecked [] rw [] eq_refl Hinit)
    as (Hlen & Hzero & Hend).
  split; [exact Hlen|]. split; [exact Hzero|]. exact (Hend Hn).
Defined.

Lemma relative_probabilities_witness :
  2 <> 0 /\ np_sum [1; 3] <> 0 /\
  normalize ((fun v => 2 * v) <$> [1; 3]) = normalize [1; 3] /\
  normalize (normalize [1; 3]) = normalize [1; 3].
Proof.
  assert (H1 : 2 <> 0) by lra.
  assert (H2 : np_sum [1; 3] <> 0) by (unfold np_sum; simpl; lra).
  split; [exact H1|]. split; [exact H2|].
  exact (relative_probabilities 2 [1; 3] H1 H2).
Defined.

Lemma lattice_sample :
  calc_next_steps lattice 1 [2%nat] = Ok (([-1], [0], [0]), []).
Proof. unfold lattice. run. same_values. Qed.

Lemma axis_sample :
  calc_next_steps axis 1 [1; 0]%nat = Ok (([-1], [0], [0]), []).
Proof. unfold axis. run. same_values. Qed.

Lemma allowed_directions_witness :
  (calc_next_steps lattice 1 [2%nat] = Ok (([-1], [0], [0]), []) /\
   dimensions lattice = 2%Z /\ angles_xy lattice = Some [0; PI / 2; PI] /\
   exists xy, In xy [0; PI / 2; PI] /\
     -1 = cos xy * sin (PI / 2) * step_length lattice /\
     0 = sin xy * sin (PI / 2) * step_length lattice /\
     0 = cos (PI / 2) * step_length lattice) /\
  (calc_next_steps axis 1 [1; 0]%nat = Ok (([-1], [0], [0]), []) /\
   dimensions axis = 3%Z /\ angles_xy axis = Some [0; PI] /\
   angles_xz axis = Some [PI / 2] /\
   exists xy xz, In xy [0; PI] /\ In xz [PI / 2] /\
     -1 = cos xy * sin xz * step_length axis /\
     0 = sin xy * sin xz * step_length axis /\
     0 = cos xz * step_length axis).
Proof.
  split.
  - split; [exact lattice_sample|]. split; [reflexivity|]. split; [reflexivity|].
    exact (proj1 (allowed_directions lattice 1 [2%nat] _ _ _ _ lattice_sample)
             [0; PI / 2; PI] eq_refl eq_refl 0%nat (-1) 0 0 eq_refl eq_refl eq_refl).
  - split; [exact axis_sample|]. split; [reflexivity|]. split; [reflexivity|].
    split; [reflexivity|].
    exact (proj2 (allowed_directions axis 1 [1; 0]%nat _ _ _ _ axis_sample)
             [0; PI] [PI / 2] eq_refl eq_refl eq_refl 0%nat (-1) 0 0
             eq_refl eq_refl eq_refl).
Defined.

Lemma displacements_drawn_witness :
  calc_next_steps lattice 1 [2%nat] = Ok (([-1], [0], [0]), []) /\
  length [-1] = 1%nat /\ length [0] = 1%nat /\ length [0] = 1%nat /\
  forall k sx sy sz,
    [-1] !! k = Some sx -> [0] !! k = Some sy -> [0] !! k = Some sz ->
    euclidean sx sy sz = Rabs (step_length lattice).
Proof.
  split; [exact lattice_sample|].
  exact (displacements_drawn lattice 1 [2%nat] _ _ _ _ lattice_sample).
Defined.

Lemma larger_budget_same_trajectory_witness :
  (constraint_counter bounce <= 1000)%Z /\
  generate_walk_coordinates bounce [1; 0; 0]%nat = Ok (bounce_walk, []) /\
  generate_walk_coordinates (with_constraint_counter 1000 bounce) [1; 0; 0]%nat
  = Ok (bounce_walk, []).
Proof.
  assert (H1 : (constraint_counter bounce <= 1000)%Z) by (simpl; lia).
  split; [exact H1|]. split; [exact bounce_generation|].
  exact (larger_budget_same_trajectory bounce 1000 [1; 0; 0]%nat bounce_walk []
           H1 bounce_generation).
Defined.
